(** * Word-error-rate evaluation pipeline: alignment engine, reference
      resolver, hypothesis collector and scorer of [evaluate_pipeline.py].

    The Python program is embedded shallowly.  Python [str] values are
    [string]s, Python [int]s that only count are [nat]s, dictionaries are
    [gmap]s, the list-of-lists cost table is a [list (list nat)] updated by
    index, and code that can raise runs in the [outcome] monad below. *)

From Stdlib Require Import Ascii ZArith SpecFloat.
From stdpp Require Import gmap strings list sorting.

Local Open Scope string_scope.
Local Open Scope nat_scope.
Local Open Scope list_scope.

(** ** Outcomes of Python code *)

(** The exceptions the embedded code can raise. *)
Inductive exn : Type :=
| IndexError
| OSError (path : string)
| SystemExit (code : nat).

(** A computation returns a value, raises, or (for the [while] loop, which is
    run with a step budget) exhausts its budget. *)
Inductive outcome (A : Type) : Type :=
| Ret (a : A)
| Raise (e : exn)
| OutOfFuel.
Arguments Ret {A} a.
Arguments Raise {A} e.
Arguments OutOfFuel {A}.

#[global] Instance outcome_ret : MRet outcome := @Ret.
#[global] Instance outcome_bind : MBind outcome := λ A B f m,
  match m with
  | Ret a => f a
  | Raise e => Raise e
  | OutOfFuel => OutOfFuel
  end.

(** [for i in xs: s = body(i, s)] *)
Fixpoint for_each {I St : Type} (xs : list I) (body : I → St → outcome St)
    (s : St) : outcome St :=
  match xs with
  | [] => Ret s
  | x :: xs' => s' ← body x s; for_each xs' body s'
  end.

(** [range(1, n + 1)] *)
Definition range1 (n : nat) : list nat := seq 1 n.

(** [l[i]] for a non-negative index: [IndexError] out of range. *)
Definition item {A : Type} (l : list A) (i : nat) : outcome A :=
  match l !! i with
  | Some x => Ret x
  | None => Raise IndexError
  end.

(** ** The cost table *)

(** [dp[i][j]] *)
Definition tget (dp : list (list nat)) (i j : nat) : outcome nat :=
  row ← item dp i; item row j.

(** [dp[i][j] = v]: the row object is updated in place; rows are distinct
    objects (the comprehension builds one per index), so no other row moves. *)
Definition tset (dp : list (list nat)) (i j v : nat) : outcome (list (list nat)) :=
  row ← item dp i;
  if decide (j < length row) then Ret (<[i := <[j := v]> row]> dp)
  else Raise IndexError.

(** [min(a, b, c)] *)
Definition min3 (a b c : nat) : nat := a `min` (b `min` c).

(** Lines 109-118 of [compute_measures_local]: the table and its three
    filling loops. *)
Definition build_dp (r h : list string) : outcome (list (list nat)) :=
  let n := length r in
  let m := length h in
  let dp := replicate (n + 1) (replicate (m + 1) 0) in
  dp ← for_each (range1 n) (λ i dp, tset dp i 0 i) dp;
  dp ← for_each (range1 m) (λ j dp, tset dp 0 j j) dp;
  for_each (range1 n) (λ i dp,
    for_each (range1 m) (λ j dp,
      ri ← item r (i - 1);
      hj ← item h (j - 1);
      let cost := if decide (ri = hj) then 0 else 1 in
      a ← tget dp (i - 1) j;
      b ← tget dp i (j - 1);
      c ← tget dp (i - 1) (j - 1);
      tset dp i j (min3 (a + 1) (b + 1) (c + cost))) dp) dp.

(** The recurrence the loops implement, as a function of the cell: the value
    the table holds at [(i, j)] once it is filled (lemma [build_dp_spec]). *)
Definition cost_at (r h : list string) (i j : nat) : nat :=
  match r !! i, h !! j with
  | Some a, Some b => if decide (a = b) then 0 else 1
  | _, _ => 1
  end.

Fixpoint lev (r h : list string) (i : nat) : nat → nat :=
  match i with
  | 0 => λ j, j
  | S i' =>
      fix row (j : nat) : nat :=
        match j with
        | 0 => S i'
        | S j' => min3 (lev r h i' (S j') + 1) (row j' + 1)
                       (lev r h i' j' + cost_at r h i' j')
        end
  end.

#[global] Arguments lev : simpl never.
#[global] Arguments cost_at : simpl never.

(** ** The backtrace *)

(** The operation tags ["OK"], ["S"], ["I"], ["D"] of an alignment row. *)
Inductive op : Type := OK | Sub | Ins | Del.

#[global] Instance op_eq_dec : EqDecision op.
Proof. solve_decision. Defined.

(** An alignment row [(ref_token, hyp_token, op)]; the side an insertion or a
    deletion lacks is the empty string. *)
Definition entry : Type := string * string * op.

(** The variables of the [while] loop. *)
Record bt_state : Type := BtState {
  bt_i : nat;
  bt_j : nat;
  bt_subs : nat;
  bt_ins : nat;
  bt_dels : nat;
  bt_hits : nat;
  bt_alignment : list entry
}.

(** The arms of the [if]/[elif]/[else] chain of the loop body. *)
Inductive branch : Type :=
| BMatch
| BInsertion
| BDeletion
| BSubstitution
| BFallback.

#[global] Instance branch_eq_dec : EqDecision branch.
Proof. solve_decision. Defined.

(** [a and b], evaluating [b] only when [a] holds. *)
Definition and_then (a : bool) (b : outcome bool) : outcome bool :=
  if a then b else Ret false.

(** The conditions of lines 125, 130, 135 and 140, tested in that order. *)
Definition bt_branch (dp : list (list nat)) (r h : list string) (i j : nat)
  : outcome branch :=
  c ← and_then (bool_decide (0 < i)) (and_then (bool_decide (0 < j)) (
         x ← tget dp i j;
         y ← tget dp (i - 1) (j - 1);
         and_then (bool_decide (x = y)) (
           a ← item r (i - 1);
           b ← item h (j - 1);
           Ret (bool_decide (a = b)))));
  if c : bool then Ret BMatch else
  c ← and_then (bool_decide (0 < j)) (
         x ← tget dp i j;
         y ← tget dp i (j - 1);
         Ret (bool_decide (x = y + 1)));
  if c : bool then Ret BInsertion else
  c ← and_then (bool_decide (0 < i)) (
         x ← tget dp i j;
         y ← tget dp (i - 1) j;
         Ret (bool_decide (x = y + 1)));
  if c : bool then Ret BDeletion else
  c ← and_then (bool_decide (0 < i)) (and_then (bool_decide (0 < j)) (
         x ← tget dp i j;
         y ← tget dp (i - 1) (j - 1);
         Ret (bool_decide (x = y + 1))));
  if c : bool then Ret BSubstitution else Ret BFallback.

(** The bodies of the arms (lines 126-128, 131-133, 136-138, 141-143 and
    146-149). *)
Definition bt_apply (r h : list string) (b : branch) (st : bt_state)
  : outcome bt_state :=
  let '(BtState i j subs ins dels hits alignment) := st in
  match b with
  | BMatch =>
      a ← item r (i - 1);
      b ← item h (j - 1);
      Ret (BtState (i - 1) (j - 1) subs ins dels (hits + 1)
                   (alignment ++ [(a, b, OK)]))
  | BInsertion =>
      b ← item h (j - 1);
      Ret (BtState i (j - 1) subs (ins + 1) dels hits
                   (alignment ++ [("", b, Ins)]))
  | BDeletion =>
      a ← item r (i - 1);
      Ret (BtState (i - 1) j subs ins (dels + 1) hits
                   (alignment ++ [(a, "", Del)]))
  | BSubstitution =>
      a ← item r (i - 1);
      b ← item h (j - 1);
      Ret (BtState (i - 1) (j - 1) (subs + 1) ins dels hits
                   (alignment ++ [(a, b, Sub)]))
  | BFallback =>
      if bool_decide (0 < i) then
        a ← item r (i - 1);
        Ret (BtState (i - 1) j subs ins (dels + 1) hits
                     (alignment ++ [(a, "", Del)]))
      else if bool_decide (0 < j) then
        b ← item h (j - 1);
        Ret (BtState i (j - 1) subs (ins + 1) dels hits
                     (alignment ++ [("", b, Ins)]))
      else Ret st
  end.

(** One iteration of the loop body. *)
Definition bt_step (dp : list (list nat)) (r h : list string) (st : bt_state)
  : outcome bt_state :=
  b ← bt_branch dp r h (bt_i st) (bt_j st);
  bt_apply r h b st.

(** [while i > 0 or j > 0: ...], run for at most [fuel] iterations. *)
Fixpoint bt_loop (fuel : nat) (dp : list (list nat)) (r h : list string)
    (st : bt_state) : outcome bt_state :=
  if bool_decide (0 < bt_i st) || bool_decide (0 < bt_j st) then
    match fuel with
    | 0 => OutOfFuel
    | S fuel' => st' ← bt_step dp r h st; bt_loop fuel' dp r h st'
    end
  else Ret st.

(** A Python [float]: a binary64 value, given by sign, mantissa and
    exponent. *)
Definition float : Type := spec_float.

(** [0.0] *)
Definition float_zero : float := S754_zero false.

(** A non-negative Python [int] as an operand of [/]. *)
Definition int_operand (n : nat) : float :=
  match N.of_nat n with
  | N0 => S754_zero false
  | Npos p => S754_finite false p 0
  end.

(** The dictionary [compute_measures_local] returns. *)
Record measures : Type := Measures {
  substitutions : nat;
  insertions : nat;
  deletions : nat;
  hits : nat;
  truth_length : nat;
  wer : float;
  alignment : list entry
}.

(** [(subs + ins + dels) / truth_len if truth_len > 0 else 0.0]: the quotient
    of two integers is the binary64 value nearest to it, ties to even. *)
Definition wer_of (subs ins dels truth_len : nat) : float :=
  if bool_decide (0 < truth_len)
  then SFdiv 53 1024 (int_operand (subs + ins + dels)) (int_operand truth_len)
  else float_zero.
#[global] Arguments wer_of : simpl never.

Definition compute_measures_local_fuel (fuel : nat) (ref_tokens hyp_tokens : list string)
  : outcome measures :=
  let r := ref_tokens in
  let h := hyp_tokens in
  let n := length r in
  let m := length h in
  dp ← build_dp r h;
  st ← bt_loop fuel dp r h (BtState n m 0 0 0 0 []);
  let '(BtState _ _ subs ins dels hits alignment) := st in
  let alignment := rev alignment in
  let truth_len := n in
  let wer := wer_of subs ins dels truth_len in
  Ret (Measures subs ins dels hits truth_len wer alignment).

(** The loop is given one iteration per token of either sequence, which is
    what it needs at most (theorem [fallback_unreachable]). *)
Definition compute_measures_local (ref_tokens hyp_tokens : list string)
  : outcome measures :=
  compute_measures_local_fuel (length ref_tokens + length hyp_tokens)
                              ref_tokens hyp_tokens.

(** Line 230 of [main]:
    [measures["substitutions"] + measures["insertions"] + measures["deletions"]] *)
Definition total_errors (ms : measures) : nat :=
  substitutions ms + insertions ms + deletions ms.

(** ** Python strings and POSIX paths

    File names and paths are [string]s of single-byte characters; their
    operations are defined on the list of characters.  [lower] folds the
    ASCII letters only. *)

Definition chars (s : string) : list ascii := String.list_ascii_of_string s.
Definition str (l : list ascii) : string := String.string_of_list_ascii l.

(** [len(s)] *)
Definition len (s : string) : nat := length (chars s).

(** [s.startswith(p)] and [s.endswith(p)] *)
Definition startswith (s p : string) : bool :=
  bool_decide (chars p `prefix_of` chars s).
Definition endswith (s p : string) : bool :=
  bool_decide (chars p `suffix_of` chars s).

(** [s[k:]] for [k >= 0] *)
Definition slice_from (k : nat) (s : string) : string := str (drop k (chars s)).

(** [s[:-k]] for [k >= 0]; [s[:-0]] is [s[:0]], the empty string. *)
Definition slice_to_neg (k : nat) (s : string) : string :=
  if decide (k = 0) then "" else str (take (len s - k) (chars s)).

(** [s.lower()] on ASCII *)
Definition lower_char (c : ascii) : ascii :=
  let n := Ascii.nat_of_ascii c in
  if bool_decide (65 ≤ n ≤ 90) then Ascii.ascii_of_nat (n + 32) else c.
Definition lower (s : string) : string := str (lower_char <$> chars s).

(** [p in s] *)
Fixpoint has_infix (p l : list ascii) : bool :=
  bool_decide (p `prefix_of` l) ||
  match l with
  | [] => false
  | _ :: l' => has_infix p l'
  end.
Definition contains (s p : string) : bool := has_infix (chars p) (chars s).

Definition slash : ascii := "/"%char.
Definition dot : ascii := "."%char.

(** [os.path.join(a, b)] *)
Definition path_join (a b : string) : string :=
  if startswith b "/" then b
  else if bool_decide (a = "") || endswith a "/" then a +:+ b
  else a +:+ "/" +:+ b.

(** The characters after the last ["/"]. *)
Fixpoint after_last_slash (l : list ascii) : list ascii :=
  match l with
  | [] => []
  | c :: l' =>
      if bool_decide (slash ∈ l') then after_last_slash l'
      else if bool_decide (c = slash) then l' else l
  end.

(** [os.path.basename(p)] *)
Definition path_basename (p : string) : string := str (after_last_slash (chars p)).

(** [l.rfind(c)] within a list of characters. *)
Fixpoint last_index (c : ascii) (l : list ascii) : option nat :=
  match l with
  | [] => None
  | x :: l' =>
      match last_index c l' with
      | Some i => Some (S i)
      | None => if bool_decide (x = c) then Some 0 else None
      end
  end.

(** [os.path.splitext(p)[0]]: cut at the last dot of the last component,
    unless only dots precede it there. *)
Definition splitext_root (p : string) : string :=
  let l := chars p in
  let base := after_last_slash l in
  match last_index dot base with
  | Some d =>
      if existsb (λ c, negb (bool_decide (c = dot))) (take d base)
      then str (take (length l - length base + d) l)
      else p
  | None => p
  end.

(** [sorted(names)]: strings compare character by character. *)
Definition sorted (names : list string) : list string :=
  merge_sort String.le names.

(** ** The reference resolver *)

Definition REF_TOKEN_SUFFIXES : list string :=
  ["_ref.token.txt"; "_reference.token.txt"; "_ref.txt"].

(** The [for suf in REF_TOKEN_SUFFIXES] loop of
    [_basename_from_ref_filename]; [None] when it falls through. *)
Fixpoint strip_known_suffix (sufs : list string) (fname : string) : option string :=
  match sufs with
  | [] => None
  | suf :: sufs' =>
      if endswith fname suf then Some (slice_to_neg (len suf) fname)
      else strip_known_suffix sufs' fname
  end.

Definition _basename_from_ref_filename (fname : string) : string :=
  match strip_known_suffix REF_TOKEN_SUFFIXES fname with
  | Some b => b
  | None => splitext_root fname
  end.

(** The directory part [glob] puts before each match of
    [os.path.join(d, pattern)]: [d] without trailing slashes, unless [d] is
    empty or made of slashes only. *)
Fixpoint rstrip_slash_rev (l : list ascii) : list ascii :=
  match l with
  | c :: l' => if bool_decide (c = slash) then rstrip_slash_rev l' else l
  | [] => []
  end.
Definition glob_dirname (d : string) : string :=
  if forallb (λ c, bool_decide (c = slash)) (chars d) then d
  else str (rev (rstrip_slash_rev (rev (chars d)))).

(** [glob.has_magic(s)]: [s] has one of the characters that make a pattern. *)
Definition magic_char (c : ascii) : bool :=
  bool_decide (c = "*"%char) || bool_decide (c = "?"%char)
  || bool_decide (c = "["%char).
Definition has_magic (s : string) : bool := existsb magic_char (chars s).

(** The directories [glob] goes through for [os.path.join(d, "*" + suf)],
    each with its entries.  When the directory part of the pattern has no
    metacharacter it is that directory, whose entries are [names]; otherwise
    the directory part is a pattern itself and the directories are those the
    file system has for it, [matching]. *)
Definition searched_dirs (d : string) (names : list string)
    (matching : list (string * list string)) : list (string * list string) :=
  if has_magic (glob_dirname d) then matching else [(glob_dirname d, names)].

(** The matches of ["*" + suf] in one directory: its entries that end in
    [suf] and do not start with a dot, in directory order, each joined to the
    directory. *)
Definition glob_in_dir (suf : string) (dir : string * list string) : list string :=
  (λ name, path_join dir.1 name) <$>
  filter (λ name, startswith name "." = false ∧ endswith name suf = true) dir.2.

(** [glob(os.path.join(d, "*" + suf))], given the directories it goes
    through. *)
Definition glob_suffix (dirs : list (string * list string)) (suf : string)
  : list string :=
  dirs ≫= glob_in_dir suf.

(** [build_reference_map(samples_dir)], given the entries of [samples_dir]
    ([None] when it is not a directory) and the directories that match
    [samples_dir] read as a pattern. *)
Definition build_reference_map (samples_dir : string) (entries : option (list string))
    (matching : list (string * list string)) : gmap string string :=
  match entries with
  | None => ∅
  | Some names =>
      let dirs := searched_dirs samples_dir names matching in
      let refs : gmap string string := ∅ in
      let refs :=
        foldl (λ refs p,
                 let name := path_basename p in
                 let b := _basename_from_ref_filename name in
                 <[b := p]> refs)
              refs (glob_suffix dirs "_ref.token.txt") in
      let refs :=
        foldl (λ refs p,
                 let name := path_basename p in
                 let b := _basename_from_ref_filename name in
                 if decide (is_Some (refs !! b)) then refs else <[b := p]> refs)
              refs (glob_suffix dirs "_reference.token.txt") in
      let refs :=
        foldl (λ refs p,
                 let name := path_basename p in
                 let b := _basename_from_ref_filename name in
                 if decide (is_Some (refs !! b)) then refs else <[b := p]> refs)
              refs (glob_suffix dirs "_ref.txt") in
      refs
  end.

(** ** The hypothesis collector *)

(** Lines 85-86: the test that excludes timing and evaluation artifacts. *)
Definition is_times_or_eval (raw_model_name : string) : bool :=
  let rm_lower := lower raw_model_name in
  bool_decide (rm_lower = "times") || endswith rm_lower "_times" ||
  startswith rm_lower "times" || contains rm_lower "_times" ||
  contains rm_lower "_eval" || bool_decide (rm_lower = "time").

(** Line 68: the test that skips reference files. *)
Definition is_ref_file (fname : string) : bool :=
  endswith fname "_ref.token.txt" || endswith fname "_reference.token.txt"
  || endswith fname "_ref.txt".

(** Lines 63-87 for one directory entry: the model name and whether the file
    is tokenized, or [None] when the entry is skipped by a [continue]. *)
Definition classify_hypothesis (prefix fname : string) : option (string * bool) :=
  if negb (endswith (lower fname) ".txt") then None
  else if negb (startswith fname prefix) then None
  else if is_ref_file fname then None
  else
    let model_part := slice_from (len prefix) fname in
    let parsed :=
      if endswith model_part ".token.txt"
      then Some (slice_to_neg (len ".token.txt") model_part, true)
      else if endswith model_part ".txt"
      then Some (slice_to_neg (len ".txt") model_part, false)
      else None in
    match parsed with
    | None => None
    | Some (raw_model_name, is_tokenized) =>
        if is_times_or_eval raw_model_name then None
        else Some (raw_model_name, is_tokenized)
    end.

(** The body of the [for fname in sorted(os.listdir(out_dir))] loop. *)
Definition collect_step (out_dir prefix : string) (candidates : gmap string string)
    (fname : string) : gmap string string :=
  match classify_hypothesis prefix fname with
  | None => candidates
  | Some (model_name, is_tokenized) =>
      if is_tokenized then <[model_name := path_join out_dir fname]> candidates
      else if decide (is_Some (candidates !! model_name)) then candidates
      else <[model_name := path_join out_dir fname]> candidates
  end.

(** [collect_hypotheses_by_model(out_dir, basename)], given the entries of
    [out_dir] ([None] when it is not a directory). *)
Definition collect_hypotheses_by_model (out_dir : string)
    (entries : option (list string)) (basename : string) : gmap string string :=
  match entries with
  | None => ∅
  | Some names =>
      let prefix := basename +:+ "_" in
      foldl (collect_step out_dir prefix) ∅ (sorted names)
  end.

(** ** The names of the report files *)

(** What precedes the last occurrence of [p] in [l], if there is one. *)
Fixpoint before_last (p l : list ascii) : option (list ascii) :=
  match l with
  | [] => if bool_decide (p `prefix_of` l) then Some [] else None
  | c :: l' =>
      match before_last p l' with
      | Some k => Some (c :: k)
      | None => if bool_decide (p `prefix_of` l) then Some [] else None
      end
  end.

(** [s.rsplit(sep, 1)[0]] for a non-empty [sep] *)
Definition rsplit1_head (s sep : string) : string :=
  match before_last (chars sep) (chars s) with
  | Some k => str k
  | None => s
  end.

(** Lines 165-170 and 192 of [write_eval_and_alignment]: the paths of the
    two files it writes, which it returns. *)
Definition eval_and_alignment_paths (hyp_path out_dir : string) : string * string :=
  let hyp_fname := path_basename hyp_path in
  let base := rsplit1_head hyp_fname ".txt" in
  let eval_fname := base +:+ "_eval.txt" in
  let align_fname := base +:+ "_alignment.csv" in
  let eval_path := path_join out_dir eval_fname in
  let align_path := path_join out_dir align_fname in
  (eval_path, align_path).

(** ** Reading tokens

    The text of a file, once decoded, is a sequence of code points; so is a
    token here. *)

Definition text : Type := list N.

(** [c.isspace()], which is also what [str.strip()] and [str.split()] without
    arguments treat as white space. *)
Definition isspace (c : N) : bool :=
  ((9 <=? c) && (c <=? 13) || (28 <=? c) && (c <=? 32) ||
   (c =? 133) || (c =? 160) || (c =? 5760) ||
   (8192 <=? c) && (c <=? 8202) || (c =? 8232) || (c =? 8233) ||
   (c =? 8239) || (c =? 8287) || (c =? 12288))%N.

(** [txt.lstrip()] and [txt.strip()] *)
Fixpoint lstrip (txt : text) : text :=
  match txt with
  | c :: txt' => if isspace c then lstrip txt' else txt
  | [] => []
  end.
Definition strip (txt : text) : text := rev (lstrip (rev (lstrip txt))).

(** [txt.split()]: the maximal runs of characters that are not white space;
    [cur] holds the run being read, last character first. *)
Fixpoint split_from (cur : text) (txt : text) : list text :=
  match txt with
  | [] => match cur with [] => [] | _ => [rev cur] end
  | c :: txt' =>
      if isspace c
      then match cur with
           | [] => split_from [] txt'
           | _ => rev cur :: split_from [] txt'
           end
      else split_from (c :: cur) txt'
  end.
Definition split (txt : text) : list text := split_from [] txt.

(** [read_tokens(path)], given the text [f.read()] returned. *)
Definition read_tokens (content : text) : list text :=
  let txt := strip content in
  if bool_decide (txt ≠ []) then split txt else [].

(** [" ".join(tokens)] *)
Fixpoint join_space (tokens : list text) : text :=
  match tokens with
  | [] => []
  | [tok] => tok
  | tok :: rest => tok ++ 32%N :: join_space rest
  end.

(** ** The driver

    [main] works on the file system, which is kept abstract here: a state
    [World] and the operations the program performs on it.  What is written
    to a file is represented by the values the text renders; output to the
    terminal is left out. *)

(** One row of the summary (lines 231-235). *)
Record summary_row : Type := SummaryRow {
  row_basename : string;
  row_model : string;
  row_wer : float;
  row_truth_length : nat;
  row_total_errors : nat;
  row_substitutions : nat;
  row_insertions : nat;
  row_deletions : nat;
  row_reference : string;
  row_hypothesis : string;
  row_eval_file : string;
  row_alignment_csv : string
}.

(** The three kinds of file the program writes. *)
Inductive file_content : Type :=
| EvalReport (ref_path hyp_path : string) (ms : measures)
             (ref_tokens hyp_tokens : list string)
| AlignmentCsv (rows : list entry)
| SummaryCsv (rows : list summary_row).

(** [x <= y] on pairs of strings, as Python compares tuples. *)
Definition tuple_le (x y : string * string) : Prop :=
  if decide (x.1 = y.1) then String.le x.2 y.2 else String.le x.1 y.1.

#[global] Instance tuple_le_dec : RelDecision tuple_le.
Proof. intros x y. unfold tuple_le. destruct (decide (x.1 = y.1)); apply _. Defined.

(** [sorted(d.keys())] and [sorted(d.items())] of a dictionary from strings
    to strings. *)
Definition sorted_keys (d : gmap string string) : list string :=
  sorted ((map_to_list d).*1).
Definition sorted_items (d : gmap string string) : list (string * string) :=
  merge_sort tuple_le (map_to_list d).

(** [summary_map]: a dictionary keeps its keys in the order of their first
    insertion, which is modelled by an association list. *)
Definition summary : Type := list ((string * string) * summary_row).

(** [d[key] = row] *)
Fixpoint dict_set (d : summary) (key : string * string) (row : summary_row) : summary :=
  match d with
  | [] => [(key, row)]
  | (k, r) :: d' =>
      if decide (k = key) then (key, row) :: d' else (k, r) :: dict_set d' key row
  end.

(** [d[key]] *)
Fixpoint dict_get (d : summary) (key : string * string) : option summary_row :=
  match d with
  | [] => None
  | (k, r) :: d' => if decide (k = key) then Some r else dict_get d' key
  end.

(** Lines 247-248: the rows in the order in which they are written. *)
Definition summary_rows (summary_map : summary) : list summary_row :=
  omap (dict_get summary_map) (merge_sort tuple_le (summary_map.*1)).

Section driver.
Context {World : Type}.
(** [os.path.isdir(d)] *)
Variable isdir : World → string → bool.
(** The entries of directory [d] as [glob] lists them; [glob] does not
    raise. *)
Variable scandir : World → string → list string.
(** The directories that match [d] read as a pattern, each with its entries
    as [glob] lists them. *)
Variable glob_dirs : World → string → list (string * list string).
(** [os.listdir(d)] *)
Variable listdir : World → string → outcome (list string).
(** [open(path, "r", encoding="utf-8")] followed by [f.read()] *)
Variable read_file : World → string → outcome text.
(** [open(path, "w", ...)]: the file is created or emptied. *)
Variable open_write : World → string → outcome World.
(** The writes into an open file, up to its closing. *)
Variable write_close : World → string → file_content → outcome World.
(** The string that stands for a token. *)
Variable token_repr : text → string.
(** [parser.parse_args()] for the parser of lines 195-197 on the command
    line [argv]: the values of [--out] and [--samples], or the exit that
    [argparse] makes. *)
Variable parse_args : list string → outcome (string * string).

(** [build_reference_map(samples_dir)] in the world [w] *)
Definition build_reference_map_at (w : World) (samples_dir : string)
  : gmap string string :=
  build_reference_map samples_dir
    (if isdir w samples_dir then Some (scandir w (glob_dirname samples_dir)) else None)
    (glob_dirs w (glob_dirname samples_dir)).

(** [collect_hypotheses_by_model(out_dir, basename)] in the world [w] *)
Definition collect_hypotheses_by_model_at (w : World) (out_dir basename : string)
  : outcome (gmap string string) :=
  if isdir w out_dir
  then names ← listdir w out_dir;
       Ret (collect_hypotheses_by_model out_dir (Some names) basename)
  else Ret (collect_hypotheses_by_model out_dir None basename).

(** [read_tokens(path)] in the world [w] *)
Definition read_tokens_at (w : World) (path : string) : outcome (list string) :=
  content ← read_file w path;
  Ret (token_repr <$> read_tokens content).

(** [write_eval_and_alignment(ref_path, hyp_path, measures, out_dir)] *)
Definition write_eval_and_alignment (w : World) (ref_path hyp_path : string)
    (ms : measures) (out_dir : string) : outcome (World * (string * string)) :=
  let '(eval_path, align_path) := eval_and_alignment_paths hyp_path out_dir in
  w ← open_write w eval_path;
  ref_tokens ← read_tokens_at w ref_path;
  hyp_tokens ← read_tokens_at w hyp_path;
  w ← write_close w eval_path (EvalReport ref_path hyp_path ms ref_tokens hyp_tokens);
  w ← open_write w align_path;
  w ← write_close w align_path (AlignmentCsv (alignment ms));
  Ret (w, (eval_path, align_path)).

(** Lines 225-237: the body of the inner loop of [main]. *)
Definition evaluate_pair (out_dir basename ref_path : string)
    (item : string * string) (st : World * summary) : outcome (World * summary) :=
  let '(w, summary_map) := st in
  let '(model_name, hyp_path) := item in
  ref_tokens ← read_tokens_at w ref_path;
  hyp_tokens ← read_tokens_at w hyp_path;
  ms ← compute_measures_local ref_tokens hyp_tokens;
  '(w, (eval_path, align_path)) ← write_eval_and_alignment w ref_path hyp_path ms out_dir;
  let key := (basename, model_name) in
  let row :=
    SummaryRow basename model_name (wer ms) (truth_length ms) (total_errors ms)
               (substitutions ms) (insertions ms) (deletions ms)
               ref_path hyp_path eval_path align_path in
  Ret (w, dict_set summary_map key row).

(** Lines 219-237: the body of the outer loop of [main]. *)
Definition evaluate_sample (out_dir : string) (ref_map : gmap string string)
    (basename : string) (st : World * summary) : outcome (World * summary) :=
  let ref_path := default "" (ref_map !! basename) in
  hyps_by_model ← collect_hypotheses_by_model_at st.1 out_dir basename;
  if decide (hyps_by_model = ∅) then Ret st
  else for_each (sorted_items hyps_by_model)
                (evaluate_pair out_dir basename ref_path) st.

(** Lines 200-237 of [main]: the world and [summary_map] when the loops are
    done. *)
Definition main_evaluate (w : World) (out_dir samples_dir : string)
  : outcome (World * summary) :=
  if negb (isdir w out_dir) then Raise (SystemExit 1)
  else if negb (isdir w samples_dir) then Raise (SystemExit 1)
  else
    let ref_map := build_reference_map_at w samples_dir in
    if decide (ref_map = ∅) then Raise (SystemExit 1)
    else
      let summary_map : summary := [] in
      for_each (sorted_keys ref_map) (evaluate_sample out_dir ref_map)
               (w, summary_map).

(** [main()], run with the command line [argv]. *)
Definition main (argv : list string) (w : World) : outcome World :=
  '(out_dir, samples_dir) ← parse_args argv;
  '(w, summary_map) ← main_evaluate w out_dir samples_dir;
  let csv_path := path_join out_dir "evaluation_summary.csv" in
  w ← open_write w csv_path;
  write_close w csv_path (SummaryCsv (summary_rows summary_map)).

End driver.

(** ** The alignment contract, in the specification's words *)

(** [l[k]] where the index is known to be in range. *)
Definition token_at (l : list string) (k : nat) : string := default "" (l !! k).

(** The tie-break policy of the specification: at cell [(i, j)] prefer an
    exact match, then an insertion, then a deletion, and take a substitution
    only when none of them applies.  The costs are those of the recurrence
    [lev]. *)
Definition preferred_op (r h : list string) (i j : nat) : op :=
  if bool_decide (0 < i ∧ 0 < j ∧ lev r h i j = lev r h (i - 1) (j - 1) ∧
                  token_at r (i - 1) = token_at h (j - 1)) then OK
  else if bool_decide (0 < j ∧ lev r h i j = lev r h i (j - 1) + 1) then Ins
  else if bool_decide (0 < i ∧ lev r h i j = lev r h (i - 1) j + 1) then Del
  else Sub.

(** The walk from [(i, j)] back to [(0, 0)] under that policy, operations in
    the order they are met. *)
Fixpoint walk_back (fuel : nat) (r h : list string) (i j : nat) : list entry :=
  match fuel with
  | 0 => []
  | S fuel' =>
      if bool_decide (i = 0 ∧ j = 0) then [] else
      match preferred_op r h i j with
      | OK => (token_at r (i - 1), token_at h (j - 1), OK)
              :: walk_back fuel' r h (i - 1) (j - 1)
      | Ins => ("", token_at h (j - 1), Ins) :: walk_back fuel' r h i (j - 1)
      | Del => (token_at r (i - 1), "", Del) :: walk_back fuel' r h (i - 1) j
      | Sub => (token_at r (i - 1), token_at h (j - 1), Sub)
               :: walk_back fuel' r h (i - 1) (j - 1)
      end
  end.

(** The trace the policy prescribes for [r] against [h], first operation
    first. *)
Definition tiebreak_trace (r h : list string) : list entry :=
  rev (walk_back (length r + length h) r h (length r) (length h)).

(** Replaying a trace: the reference side keeps every row but the insertions,
    the hypothesis side every row but the deletions. *)
Definition ref_side (al : list entry) : list string :=
  (λ e : entry, e.1.1) <$> filter (λ e : entry, e.2 ≠ Ins) al.

Definition hyp_side (al : list entry) : list string :=
  (λ e : entry, e.1.2) <$> filter (λ e : entry, e.2 ≠ Del) al.

(** How many rows of a trace carry the tag [o]. *)
Definition count_op (o : op) (al : list entry) : nat :=
  length (filter (λ e : entry, e.2 = o) al).

(** An edit script from [r] to [h]: a trace that replays to both sequences and
    whose ["OK"] rows pair equal tokens.  Its cost is the number of rows that
    are not ["OK"]. *)
Definition edit_script (r h : list string) (al : list entry) : Prop :=
  ref_side al = r ∧ hyp_side al = h ∧
  ∀ a b, (a, b, OK) ∈ al → a = b.

Definition script_cost (al : list entry) : nat :=
  count_op Sub al + count_op Ins al + count_op Del al.

(** ** Facts about the cost table *)

Lemma item_Some {A : Type} (l : list A) (i : nat) (x : A) :
  l !! i = Some x → item l i = Ret x.
Proof. unfold item. by intros ->. Qed.

Lemma item_lt {A : Type} (l : list A) (i : nat) :
  i < length l → ∃ x, l !! i = Some x ∧ item l i = Ret x.
Proof.
  intros Hlt. destruct (lookup_lt_is_Some_2 l i Hlt) as [x Hx].
  exists x. split; [done | by apply item_Some].
Qed.

Lemma item_Ret {A : Type} (l : list A) (i : nat) (x : A) :
  item l i = Ret x → l !! i = Some x.
Proof. unfold item. destruct (l !! i); by intros [= ->]. Qed.

(** A table of [n + 1] rows of [m + 1] cells. *)
Definition shape (n m : nat) (dp : list (list nat)) : Prop :=
  length dp = S n ∧ ∀ i row, dp !! i = Some row → length row = S m.

Lemma shape_replicate n m : shape n m (replicate (n + 1) (replicate (m + 1) 0)).
Proof.
  split.
  - rewrite length_replicate. lia.
  - intros i row [-> _]%lookup_replicate. rewrite length_replicate. lia.
Qed.

Lemma tget_replicate n m i j :
  i ≤ n → j ≤ m → tget (replicate (n + 1) (replicate (m + 1) 0)) i j = Ret 0.
Proof.
  intros Hi Hj. unfold tget.
  rewrite (item_Some _ i (replicate (m + 1) 0)); [|apply lookup_replicate_2; lia].
  simpl. apply item_Some, lookup_replicate_2. lia.
Qed.

Lemma tget_defined n m dp i j :
  shape n m dp → i ≤ n → j ≤ m → ∃ v, tget dp i j = Ret v.
Proof.
  intros [Hlen Hrows] Hi Hj. unfold tget.
  destruct (item_lt dp i) as (row & Hrow & ->); [lia|]. simpl.
  destruct (item_lt row j) as (v & _ & ->); [rewrite (Hrows i row Hrow); lia|].
  by exists v.
Qed.

Lemma tset_spec n m dp i j v :
  shape n m dp → i ≤ n → j ≤ m →
  ∃ dp', tset dp i j v = Ret dp' ∧ shape n m dp' ∧ tget dp' i j = Ret v ∧
         ∀ i' j', i' ≠ i ∨ j' ≠ j → tget dp' i' j' = tget dp i' j'.
Proof.
  intros [Hlen Hrows] Hi Hj. unfold tset.
  destruct (item_lt dp i) as (row & Hrow & ->); [lia|]. simpl.
  pose proof (Hrows i row Hrow) as Hrl.
  rewrite decide_True by lia.
  eexists. split; [done|]. split; [|split].
  - split; [by rewrite length_insert|].
    intros i' row'. destruct (decide (i' = i)) as [->|Hne].
    + rewrite list_lookup_insert_eq by lia. intros [= <-].
      by rewrite length_insert.
    + rewrite list_lookup_insert_ne by done. apply Hrows.
  - unfold tget. rewrite (item_Some _ i (<[j:=v]> row)).
    + simpl. apply item_Some, list_lookup_insert_eq. lia.
    + apply list_lookup_insert_eq. lia.
  - intros i' j' Hneq. unfold tget.
    destruct (decide (i' = i)) as [->|Hne].
    + destruct Hneq as [?|Hj']; [done|].
      rewrite (item_Some _ i (<[j:=v]> row)) by (apply list_lookup_insert_eq; lia).
      rewrite (item_Some dp i row) by done. simpl.
      unfold item. by rewrite list_lookup_insert_ne.
    + unfold item at 2 4. by rewrite list_lookup_insert_ne.
Qed.

(** Loop invariants for [for i in range(a, a + len)]. *)
Lemma for_each_seq_inv {St : Type} (P : nat → St → Prop)
    (body : nat → St → outcome St) (a len : nat) (s : St) :
  P a s →
  (∀ i s, a ≤ i < a + len → P i s → ∃ s', body i s = Ret s' ∧ P (i + 1) s') →
  ∃ s', for_each (seq a len) body s = Ret s' ∧ P (a + len) s'.
Proof.
  revert a s. induction len as [|len IH]; intros a s Ha Hstep; simpl.
  - exists s. split; [done|]. by replace (a + 0) with a by lia.
  - destruct (Hstep a s) as (s1 & -> & H1); [lia|done|]. simpl.
    replace (a + S len) with ((a + 1) + len) by lia.
    replace (S a) with (a + 1) by lia.
    apply IH; [done|]. intros i s2 Hi. apply Hstep. lia.
Qed.

(** Runs the first loop of the goal under the invariant [P]. *)
Ltac with_loop_invariant P pat :=
  match goal with
  | |- context [for_each (seq ?a ?len) ?body ?s] =>
      let H := fresh "Hloop" in
      assert (∃ s', for_each (seq a len) body s = Ret s' ∧ P (a + len) s') as H;
      [ apply (for_each_seq_inv P body a len s) | destruct H as pat ]
  end.

Lemma lev_0_l r h j : lev r h 0 j = j.
Proof. done. Qed.

Lemma lev_0_r r h i : lev r h i 0 = i.
Proof. by destruct i. Qed.

Lemma lev_S_S r h i j :
  lev r h (S i) (S j) =
  min3 (lev r h i (S j) + 1) (lev r h (S i) j + 1) (lev r h i j + cost_at r h i j).
Proof. done. Qed.

Section table.
Context (r h : list string).
Let n := length r.
Let m := length h.

(** Column 0 holds the row index. *)
Definition col0_ok (dp : list (list nat)) : Prop :=
  ∀ i, i ≤ n → tget dp i 0 = Ret i.

(** Rows below [k] are filled. *)
Definition rows_ok (k : nat) (dp : list (list nat)) : Prop :=
  ∀ i j, i < k → i ≤ n → j ≤ m → tget dp i j = Ret (lev r h i j).

Lemma fill_cell dp i j :
  shape n m dp → 1 ≤ i ≤ n → 1 ≤ j ≤ m →
  rows_ok i dp → (∀ j', j' < j → tget dp i j' = Ret (lev r h i j')) →
  ∃ dp',
    (ri ← item r (i - 1);
     hj ← item h (j - 1);
     let cost := if decide (ri = hj) then 0 else 1 in
     a ← tget dp (i - 1) j;
     b ← tget dp i (j - 1);
     c ← tget dp (i - 1) (j - 1);
     tset dp i j (min3 (a + 1) (b + 1) (c + cost))) = Ret dp' ∧
    shape n m dp' ∧ tget dp' i j = Ret (lev r h i j) ∧
    ∀ i' j', i' ≠ i ∨ j' ≠ j → tget dp' i' j' = tget dp i' j'.
Proof.
  intros Hsh Hi Hj Hrows Hrow.
  destruct (item_lt r (i - 1)) as (ri & Hri & ->); [unfold n in *; lia|].
  destruct (item_lt h (j - 1)) as (hj & Hhj & ->); [unfold m in *; lia|].
  simpl.
  rewrite (Hrows (i - 1) j) by lia. simpl.
  rewrite (Hrow (j - 1)) by lia. simpl.
  rewrite (Hrows (i - 1) (j - 1)) by lia. simpl.
  destruct i as [|i]; [lia|]. destruct j as [|j]; [lia|].
  replace (S i - 1) with i in * by lia. replace (S j - 1) with j in * by lia.
  rewrite lev_S_S. unfold cost_at. rewrite Hri, Hhj.
  apply (tset_spec n m); [done|lia|lia].
Qed.

Lemma build_dp_spec :
  ∃ dp, build_dp r h = Ret dp ∧ shape n m dp ∧
        ∀ i j, i ≤ n → j ≤ m → tget dp i j = Ret (lev r h i j).
Proof.
  unfold build_dp, range1. fold n m.
  (* first loop: column 0 *)
  with_loop_invariant
    (λ k dp, shape n m dp ∧
             (∀ i j, i ≤ n → j ≤ m → k ≤ i ∨ 0 < j → tget dp i j = Ret 0) ∧
             ∀ i, i < k → i ≤ n → tget dp i 0 = Ret i)
    ipattern:((dp1 & -> & Hsh1 & Hz1 & Hc1)).
  { split; [apply shape_replicate|]. split.
    - intros. by apply tget_replicate.
    - intros i Hi _. replace i with 0 by lia. apply tget_replicate; lia. }
  { intros i dp Hi (Hsh & Hz & Hc).
    destruct (tset_spec n m dp i 0 i Hsh) as (dp' & -> & Hsh' & Hget & Hoth); [lia..|].
    exists dp'. split; [done|]. split; [done|]. split.
    - intros i' j' ?? Hor. rewrite Hoth by lia. apply Hz; lia.
    - intros i' ??. destruct (decide (i' = i)) as [->|]; [done|].
      rewrite Hoth by lia. apply Hc; lia. }
  simpl.
  (* second loop: row 0 *)
  with_loop_invariant
    (λ k dp, shape n m dp ∧ col0_ok dp ∧ ∀ j, j < k → j ≤ m → tget dp 0 j = Ret j)
    ipattern:((dp2 & -> & Hsh2 & Hc2 & Hr2)).
  { split; [done|]. split.
    - intros i ?. apply Hc1; lia.
    - intros j ? _. replace j with 0 by lia. apply Hc1; lia. }
  { intros j dp Hj (Hsh & Hc & Hr).
    destruct (tset_spec n m dp 0 j j Hsh) as (dp' & -> & Hsh' & Hget & Hoth); [lia..|].
    exists dp'. split; [done|]. split; [done|]. split.
    - intros i ?. rewrite Hoth by lia. by apply Hc.
    - intros j' ??. destruct (decide (j' = j)) as [->|]; [done|].
      rewrite Hoth by lia. apply Hr; lia. }
  simpl.
  (* third loop: the recurrence, row by row *)
  with_loop_invariant
    (λ k dp, shape n m dp ∧ col0_ok dp ∧ rows_ok k dp)
    ipattern:((dp3 & -> & Hsh3 & _ & Hr3)).
  { split; [done|]. split; [done|].
    intros i j ???. replace i with 0 by lia. rewrite lev_0_l. apply Hr2; lia. }
  { intros i dp Hi (Hsh & Hc & Hrows).
    with_loop_invariant
      (λ l dp, shape n m dp ∧ col0_ok dp ∧ rows_ok i dp ∧
               ∀ j, j < l → tget dp i j = Ret (lev r h i j))
      ipattern:((dp' & -> & Hsh' & Hc' & Hrows' & Hrow')).
    { split; [done|]. split; [done|]. split; [done|].
      intros j ?. replace j with 0 by lia. rewrite lev_0_r. apply Hc; lia. }
    { intros j dp0 Hj (Hsh0 & Hc0 & Hrows0 & Hrow0).
      destruct (fill_cell dp0 i j) as (dp' & Heq & Hsh' & Hget & Hoth);
        [done|lia|lia|done|done|].
      exists dp'. split; [exact Heq|]. split; [done|]. split; [|split].
      - intros i' ?. rewrite Hoth by lia. by apply Hc0.
      - intros i' j' ???. rewrite Hoth by lia. by apply Hrows0.
      - intros j' ?. destruct (decide (j' = j)) as [->|]; [done|].
        rewrite Hoth by lia. apply Hrow0; lia. }
    exists dp'. split; [done|]. split; [done|]. split; [done|].
    intros i' j' ???. destruct (decide (i' = i)) as [->|].
    - apply Hrow'. lia.
    - apply Hrows'; lia. }
  exists dp3. split; [done|]. split; [done|].
  intros i j ??. apply Hr3; lia.
Qed.
End table.

(** ** Facts about the recurrence *)

Lemma lev_ins r h i j : lev r h i (S j) ≤ lev r h i j + 1.
Proof.
  destruct i as [|i]; [rewrite !lev_0_l; lia|]. rewrite lev_S_S. unfold min3. lia.
Qed.

Lemma lev_del r h i j : lev r h (S i) j ≤ lev r h i j + 1.
Proof.
  destruct j as [|j]; [rewrite !lev_0_r; lia|]. rewrite lev_S_S. unfold min3. lia.
Qed.

Lemma lev_diag r h i j : lev r h (S i) (S j) ≤ lev r h i j + cost_at r h i j.
Proof. rewrite lev_S_S. unfold min3. lia. Qed.

Lemma cost_at_le_1 r h i j : cost_at r h i j ≤ 1.
Proof. unfold cost_at. repeat case_match; lia. Qed.

Lemma cost_at_tokens r h i j :
  i < length r → j < length h →
  cost_at r h i j = if decide (token_at r i = token_at h j) then 0 else 1.
Proof.
  intros Hi Hj. unfold cost_at, token_at.
  destruct (lookup_lt_is_Some_2 r i Hi) as [a ->].
  destruct (lookup_lt_is_Some_2 h j Hj) as [b ->]. done.
Qed.

Lemma item_token_at (l : list string) (k : nat) :
  k < length l → item l k = Ret (token_at l k).
Proof.
  intros Hk. unfold token_at.
  destruct (item_lt l k Hk) as (x & -> & ->). done.
Qed.

(** ** The loop body follows the tie-break policy *)

Definition branch_of (o : op) : branch :=
  match o with
  | OK => BMatch
  | Ins => BInsertion
  | Del => BDeletion
  | Sub => BSubstitution
  end.

Section backtrace.
Context (r h : list string) (dp : list (list nat)).
Let n := length r.
Let m := length h.
Hypothesis dp_cells : ∀ i j, i ≤ n → j ≤ m → tget dp i j = Ret (lev r h i j).

Lemma bt_branch_preferred i j :
  i ≤ n → j ≤ m → 0 < i ∨ 0 < j →
  bt_branch dp r h i j = Ret (branch_of (preferred_op r h i j)).
Proof.
  intros Hi Hj Hpos. unfold bt_branch, preferred_op.
  destruct i as [|i], j as [|j]; [lia| | |].
  - (* top row: only an insertion is possible *)
    simpl. rewrite ?Nat.sub_0_r. repeat (rewrite ?dp_cells by lia; simpl).
    rewrite !lev_0_l.
    rewrite (bool_decide_true (S j = j + 1)) by lia.
    rewrite bool_decide_true; [done|]. split; lia.
  - (* left column: only a deletion is possible *)
    simpl. rewrite ?Nat.sub_0_r. repeat (rewrite ?dp_cells by lia; simpl).
    rewrite !lev_0_r.
    rewrite (bool_decide_true (S i = i + 1)) by lia.
    rewrite bool_decide_true; [done|]. split; lia.
  - (* inner cell *)
    clear Hpos. simpl. rewrite ?Nat.sub_0_r. repeat (rewrite ?dp_cells by lia; simpl).
    rewrite !item_token_at by (fold n m; lia). simpl.
    pose proof (lev_S_S r h i j) as Hrec.
    rewrite cost_at_tokens in Hrec by (fold n m; lia).
    unfold min3 in Hrec.
    set (X := lev r h (S i) (S j)) in *. set (A := lev r h i (S j)) in *.
    set (B := lev r h (S i) j) in *. set (C := lev r h i j) in *.
    destruct (decide (token_at r i = token_at h j)) as [Heq|Hne].
    + rewrite (bool_decide_true (token_at r i = token_at h j)) by done.
      destruct (decide (X = C)) as [HXC|HXC].
      * rewrite (bool_decide_true (X = C)) by done. simpl.
        rewrite bool_decide_true; [done|]. repeat split; lia || done.
      * rewrite (bool_decide_false (X = C)) by done. simpl.
        rewrite (bool_decide_false (_ ∧ _ ∧ X = C ∧ _)) by (intros (? & ? & ? & ?); done).
        destruct (decide (X = B + 1)) as [HXB|HXB].
        -- rewrite (bool_decide_true (X = B + 1)) by done. simpl.
           rewrite bool_decide_true; [done|]. split; lia.
        -- rewrite (bool_decide_false (X = B + 1)) by done. simpl.
           rewrite (bool_decide_false (_ ∧ X = B + 1)) by (intros [? ?]; done).
           rewrite (bool_decide_true (X = A + 1)) by lia. simpl.
           rewrite bool_decide_true; [done|]. split; lia.
    + rewrite (bool_decide_false (token_at r i = token_at h j)) by done.
      replace (and_then (bool_decide (X = C)) (Ret false)) with (Ret false : outcome bool)
        by (by destruct (bool_decide (X = C))).
      simpl.
      rewrite (bool_decide_false (_ ∧ _ ∧ X = C ∧ _)) by (intros (? & ? & ? & ?); done).
      destruct (decide (X = B + 1)) as [HXB|HXB].
      * rewrite (bool_decide_true (X = B + 1)) by done. simpl.
        rewrite bool_decide_true; [done|]. split; lia.
      * rewrite (bool_decide_false (X = B + 1)) by done. simpl.
        rewrite (bool_decide_false (_ ∧ X = B + 1)) by (intros [? ?]; done).
        destruct (decide (X = A + 1)) as [HXA|HXA].
        -- rewrite (bool_decide_true (X = A + 1)) by done. simpl.
           rewrite bool_decide_true; [done|]. split; lia.
        -- rewrite (bool_decide_false (X = A + 1)) by done. simpl.
           rewrite (bool_decide_false (_ ∧ X = A + 1)) by (intros [? ?]; done).
           rewrite (bool_decide_true (X = C + 1)) by lia. done.
Qed.

(** What the policy's choice says about the cell it is made at. *)
Lemma preferred_op_spec i j :
  i ≤ n → j ≤ m → 0 < i ∨ 0 < j →
  match preferred_op r h i j with
  | OK => 0 < i ∧ 0 < j ∧ lev r h i j = lev r h (i - 1) (j - 1) ∧
          token_at r (i - 1) = token_at h (j - 1)
  | Ins => 0 < j ∧ lev r h i j = lev r h i (j - 1) + 1
  | Del => 0 < i ∧ lev r h i j = lev r h (i - 1) j + 1
  | Sub => 0 < i ∧ 0 < j ∧ lev r h i j = lev r h (i - 1) (j - 1) + 1
  end.
Proof.
  intros Hi Hj Hpos. unfold preferred_op.
  repeat case_bool_decide; try done.
  destruct i as [|i], j as [|j]; [lia| | |].
  - exfalso. apply H0. replace (S j - 1) with j by lia.
    rewrite !lev_0_l. lia.
  - exfalso. apply H1. replace (S i - 1) with i by lia.
    rewrite !lev_0_r. lia.
  - replace (S i - 1) with i in * by lia. replace (S j - 1) with j in * by lia.
    pose proof (lev_S_S r h i j) as Hrec.
    rewrite cost_at_tokens in Hrec by (fold n m; lia).
    unfold min3 in Hrec. split; [lia|]. split; [lia|].
    destruct (decide (token_at r i = token_at h j)) as [Heq|Hne].
    + assert (lev r h (S i) (S j) ≠ lev r h i j) by (intros ?; apply H; repeat split; lia || done).
      assert (lev r h (S i) (S j) ≠ lev r h (S i) j + 1) by (intros ?; apply H0; split; lia).
      assert (lev r h (S i) (S j) ≠ lev r h i (S j) + 1) by (intros ?; apply H1; split; lia).
      lia.
    + assert (lev r h (S i) (S j) ≠ lev r h (S i) j + 1) by (intros ?; apply H0; split; lia).
      assert (lev r h (S i) (S j) ≠ lev r h i (S j) + 1) by (intros ?; apply H1; split; lia).
      lia.
Qed.

(** The state after one iteration, as the policy prescribes it. *)
Definition advance (st : bt_state) : bt_state :=
  let '(BtState i j subs ins dels hits al) := st in
  match preferred_op r h i j with
  | OK => BtState (i - 1) (j - 1) subs ins dels (hits + 1)
                  (al ++ [(token_at r (i - 1), token_at h (j - 1), OK)])
  | Ins => BtState i (j - 1) subs (ins + 1) dels hits
                   (al ++ [("", token_at h (j - 1), Ins)])
  | Del => BtState (i - 1) j subs ins (dels + 1) hits
                   (al ++ [(token_at r (i - 1), "", Del)])
  | Sub => BtState (i - 1) (j - 1) (subs + 1) ins dels hits
                   (al ++ [(token_at r (i - 1), token_at h (j - 1), Sub)])
  end.

Lemma bt_step_advance st :
  bt_i st ≤ n → bt_j st ≤ m → 0 < bt_i st ∨ 0 < bt_j st →
  bt_step dp r h st = Ret (advance st).
Proof.
  destruct st as [i j subs ins dels hits al]. simpl. intros Hi Hj Hpos.
  unfold bt_step. simpl. rewrite bt_branch_preferred by done. simpl.
  pose proof (preferred_op_spec i j Hi Hj Hpos) as Hop.
  destruct (preferred_op r h i j); simpl;
    rewrite ?item_token_at by (fold n m; lia); done.
Qed.

Lemma advance_decreases st :
  bt_i st ≤ n → bt_j st ≤ m → 0 < bt_i st ∨ 0 < bt_j st →
  bt_i (advance st) ≤ n ∧ bt_j (advance st) ≤ m ∧
  bt_i (advance st) + bt_j (advance st) < bt_i st + bt_j st.
Proof.
  destruct st as [i j subs ins dels hits al]. simpl. intros Hi Hj Hpos.
  pose proof (preferred_op_spec i j Hi Hj Hpos) as Hop.
  destruct (preferred_op r h i j); simpl; lia.
Qed.

(** The state the loop ends in when [w] is what remained to be walked. *)
Definition finish (st : bt_state) (w : list entry) : bt_state :=
  BtState 0 0 (bt_subs st + count_op Sub w) (bt_ins st + count_op Ins w)
          (bt_dels st + count_op Del w) (bt_hits st + count_op OK w)
          (bt_alignment st ++ w).

Lemma count_op_cons o (e : entry) w :
  count_op o (e :: w) = (if decide (e.2 = o) then 1 else 0) + count_op o w.
Proof. unfold count_op. rewrite filter_cons. by case_decide. Qed.

Lemma bt_loop_walk fuel st :
  bt_i st ≤ n → bt_j st ≤ m → bt_i st + bt_j st ≤ fuel →
  bt_loop fuel dp r h st = Ret (finish st (walk_back fuel r h (bt_i st) (bt_j st))).
Proof.
  revert st. induction fuel as [|fuel IH]; intros st Hi Hj Hfuel.
  - destruct st as [i j subs ins dels hits al]. simpl in *.
    assert (i = 0) as -> by lia. assert (j = 0) as -> by lia. simpl.
    unfold finish, count_op. simpl. by rewrite !Nat.add_0_r, app_nil_r.
  - destruct (decide (bt_i st = 0 ∧ bt_j st = 0)) as [Hz|Hnz].
    + destruct st as [i j subs ins dels hits al]. simpl in *.
      destruct Hz as [-> ->]. simpl.
      unfold finish, count_op. simpl. by rewrite !Nat.add_0_r, app_nil_r.
    + assert (0 < bt_i st ∨ 0 < bt_j st) as Hpos by lia.
      cbn [bt_loop walk_back].
      replace (bool_decide (0 < bt_i st) || bool_decide (0 < bt_j st)) with true
        by (symmetry; apply orb_true_iff; destruct Hpos;
            [left|right]; by apply bool_decide_eq_true).
      rewrite (bool_decide_false (bt_i st = 0 ∧ bt_j st = 0)) by done.
      rewrite bt_step_advance by done.
      destruct (advance_decreases st Hi Hj Hpos) as (Hi' & Hj' & Hdec).
      change (Ret (advance st) ≫= (λ st', bt_loop fuel dp r h st'))
        with (bt_loop fuel dp r h (advance st)).
      rewrite IH by lia. f_equal.
      destruct st as [i j subs ins dels hits al]. cbn [advance bt_i bt_j] in *.
      destruct (preferred_op r h i j); unfold finish;
        cbn [bt_i bt_j bt_subs bt_ins bt_dels bt_hits bt_alignment];
        rewrite !count_op_cons; cbn [snd]; rewrite <- ?app_assoc;
        f_equal; simpl; lia.
Qed.
End backtrace.

(** ** The walk of the policy is a cheapest edit script *)

Lemma ref_side_app al1 al2 : ref_side (al1 ++ al2) = ref_side al1 ++ ref_side al2.
Proof. unfold ref_side. by rewrite filter_app, fmap_app. Qed.

Lemma hyp_side_app al1 al2 : hyp_side (al1 ++ al2) = hyp_side al1 ++ hyp_side al2.
Proof. unfold hyp_side. by rewrite filter_app, fmap_app. Qed.

Lemma count_op_app o al1 al2 : count_op o (al1 ++ al2) = count_op o al1 + count_op o al2.
Proof. unfold count_op. by rewrite filter_app, length_app. Qed.

Lemma count_op_rev o al : count_op o (rev al) = count_op o al.
Proof.
  induction al as [|e al IH]; [done|]. simpl.
  rewrite count_op_app, IH, !count_op_cons. change (count_op o []) with 0. lia.
Qed.

Lemma count_op_total al :
  length al = count_op OK al + count_op Sub al + count_op Ins al + count_op Del al.
Proof.
  induction al as [|[[a b] o] al IH]; [done|].
  rewrite !count_op_cons. simpl. destruct o; repeat case_decide; try done; lia.
Qed.

Lemma length_ref_side al :
  length (ref_side al) = count_op OK al + count_op Sub al + count_op Del al.
Proof.
  induction al as [|[[a b] o] al IH]; [done|].
  rewrite !count_op_cons. unfold ref_side in *. rewrite filter_cons. simpl.
  destruct o; repeat case_decide; try done; rewrite ?fmap_cons; cbn [length]; lia.
Qed.

Lemma length_hyp_side al :
  length (hyp_side al) = count_op OK al + count_op Sub al + count_op Ins al.
Proof.
  induction al as [|[[a b] o] al IH]; [done|].
  rewrite !count_op_cons. unfold hyp_side in *. rewrite filter_cons. simpl.
  destruct o; repeat case_decide; try done; rewrite ?fmap_cons; cbn [length]; lia.
Qed.

Lemma elem_of_rev_1 {A : Type} (x : A) (l : list A) : x ∈ rev l → x ∈ l.
Proof. rewrite !list_elem_of_In. apply in_rev. Qed.

Lemma take_pred_snoc (l : list string) (k : nat) :
  0 < k → k ≤ length l → take k l = take (k - 1) l ++ [token_at l (k - 1)].
Proof.
  intros Hk Hle. destruct k as [|k]; [lia|]. simpl. rewrite Nat.sub_0_r.
  unfold token_at. destruct (lookup_lt_is_Some_2 l k) as [x Hx]; [lia|].
  rewrite Hx. simpl. by apply take_S_r.
Qed.

Section walk.
Context (r h : list string).
Let n := length r.
Let m := length h.

(** More budget than cells to cross changes nothing. *)
Lemma walk_back_fuel_irrel fuel1 fuel2 i j :
  i ≤ n → j ≤ m → i + j ≤ fuel1 → i + j ≤ fuel2 →
  walk_back fuel1 r h i j = walk_back fuel2 r h i j.
Proof.
  revert fuel2 i j. induction fuel1 as [|fuel1 IH]; intros fuel2 i j Hi Hj Hf1 Hf2.
  - assert (i = 0) as -> by lia. assert (j = 0) as -> by lia.
    by destruct fuel2.
  - destruct (decide (i = 0 ∧ j = 0)) as [[-> ->]|Hnz]; [by destruct fuel2|].
    assert (0 < i ∨ 0 < j) as Hpos by lia.
    destruct fuel2 as [|fuel2]; [lia|]. cbn [walk_back].
    rewrite bool_decide_false by done.
    pose proof (preferred_op_spec r h i j Hi Hj Hpos) as Hop.
    destruct (preferred_op r h i j); f_equal; apply IH; lia.
Qed.

Lemma walk_back_fuel fuel i j :
  i ≤ n → j ≤ m → i + j ≤ fuel →
  walk_back fuel r h i j = walk_back (i + j) r h i j.
Proof. intros. apply walk_back_fuel_irrel; lia. Qed.

Lemma walk_back_sides fuel i j :
  i ≤ n → j ≤ m → i + j ≤ fuel →
  ref_side (rev (walk_back fuel r h i j)) = take i r ∧
  hyp_side (rev (walk_back fuel r h i j)) = take j h.
Proof.
  revert i j. induction fuel as [|fuel IH]; intros i j Hi Hj Hf.
  - assert (i = 0) as -> by lia. assert (j = 0) as -> by lia. done.
  - simpl. case_bool_decide as Hz; [by destruct Hz as [-> ->]|].
    assert (0 < i ∨ 0 < j) as Hpos by lia.
    pose proof (preferred_op_spec r h i j Hi Hj Hpos) as Hop.
    destruct (preferred_op r h i j); simpl;
      rewrite ref_side_app, hyp_side_app.
    + destruct (IH (i - 1) (j - 1)) as [-> ->]; [lia..|].
      rewrite (take_pred_snoc r i), (take_pred_snoc h j) by (fold n m; lia). done.
    + destruct (IH (i - 1) (j - 1)) as [-> ->]; [lia..|].
      rewrite (take_pred_snoc r i), (take_pred_snoc h j) by (fold n m; lia). done.
    + destruct (IH i (j - 1)) as [-> ->]; [lia..|].
      rewrite (take_pred_snoc h j) by (fold n m; lia).
      unfold ref_side. simpl. by rewrite app_nil_r.
    + destruct (IH (i - 1) j) as [-> ->]; [lia..|].
      rewrite (take_pred_snoc r i) by (fold n m; lia).
      unfold hyp_side. simpl. by rewrite app_nil_r.
Qed.

Lemma walk_back_cost fuel i j :
  i ≤ n → j ≤ m → i + j ≤ fuel →
  script_cost (walk_back fuel r h i j) = lev r h i j.
Proof.
  revert i j. induction fuel as [|fuel IH]; intros i j Hi Hj Hf.
  - assert (i = 0) as -> by lia. assert (j = 0) as -> by lia. done.
  - simpl. case_bool_decide as Hz; [by destruct Hz as [-> ->]|].
    assert (0 < i ∨ 0 < j) as Hpos by lia.
    pose proof (preferred_op_spec r h i j Hi Hj Hpos) as Hop.
    unfold script_cost in *.
    destruct (preferred_op r h i j); rewrite !count_op_cons; simpl.
    + specialize (IH (i - 1) (j - 1)). lia.
    + specialize (IH (i - 1) (j - 1)). lia.
    + specialize (IH i (j - 1)). lia.
    + specialize (IH (i - 1) j). lia.
Qed.

Lemma walk_back_matches fuel i j a b :
  i ≤ n → j ≤ m → i + j ≤ fuel →
  (a, b, OK) ∈ walk_back fuel r h i j → a = b.
Proof.
  revert i j. induction fuel as [|fuel IH]; intros i j Hi Hj Hf; simpl.
  - by intros ?%elem_of_nil.
  - case_bool_decide as Hz; [by intros ?%elem_of_nil|].
    assert (0 < i ∨ 0 < j) as Hpos by lia.
    pose proof (preferred_op_spec r h i j Hi Hj Hpos) as Hop.
    destruct (preferred_op r h i j); intros [Heq|Hin]%elem_of_cons;
      try (by simplify_eq); try (by simplify_eq; destruct_and?).
    + apply (IH (i - 1) (j - 1)); [lia..|done].
    + apply (IH (i - 1) (j - 1)); [lia..|done].
    + apply (IH i (j - 1)); [lia..|done].
    + apply (IH (i - 1) j); [lia..|done].
Qed.

(** No edit script between two prefixes is cheaper than the recurrence. *)
Lemma lev_lower_bound al i j :
  i ≤ n → j ≤ m →
  ref_side al = take i r → hyp_side al = take j h →
  (∀ a b, (a, b, OK) ∈ al → a = b) →
  lev r h i j ≤ script_cost al.
Proof.
  revert i j. induction al as [|[[a b] o] al IH] using rev_ind; intros i j Hi Hj Hr Hh Hok.
  - apply (f_equal length) in Hr, Hh. rewrite length_take in Hr, Hh.
    change (length (ref_side [])) with 0 in Hr.
    change (length (hyp_side [])) with 0 in Hh.
    assert (i = 0) as -> by (fold n in Hr; lia).
    assert (j = 0) as -> by (fold m in Hh; lia).
    rewrite lev_0_l. lia.
  - rewrite ref_side_app in Hr. rewrite hyp_side_app in Hh.
    assert (∀ a b, (a, b, OK) ∈ al → a = b) as Hok'.
    { intros ???. apply Hok. apply elem_of_app. by left. }
    unfold script_cost in *. rewrite !count_op_app.
    unfold count_op at 2 4 6. simpl.
    destruct o; unfold ref_side at 2 in Hr; unfold hyp_side at 2 in Hh;
      simpl in Hr, Hh; rewrite ?app_nil_r in Hr, Hh.
    + (* a match: the tokens are equal, the diagonal costs nothing *)
      destruct i as [|i]; [by destruct (ref_side al)|].
      destruct j as [|j]; [by destruct (hyp_side al)|].
      rewrite (take_pred_snoc r (S i)) in Hr by (fold n; lia).
      rewrite (take_pred_snoc h (S j)) in Hh by (fold m; lia).
      simpl in Hr, Hh. rewrite Nat.sub_0_r in Hr, Hh.
      apply app_inj_tail in Hr as [Hr Ha], Hh as [Hh Hb].
      specialize (IH i j ltac:(lia) ltac:(lia) Hr Hh Hok').
      assert (a = b) as Hab by (apply Hok, elem_of_app; right; by apply list_elem_of_singleton).
      pose proof (lev_diag r h i j) as Hd.
      rewrite cost_at_tokens in Hd by (fold n m; lia).
      rewrite decide_True in Hd by congruence. simpl. lia.
    + destruct i as [|i]; [by destruct (ref_side al)|].
      destruct j as [|j]; [by destruct (hyp_side al)|].
      rewrite (take_pred_snoc r (S i)) in Hr by (fold n; lia).
      rewrite (take_pred_snoc h (S j)) in Hh by (fold m; lia).
      simpl in Hr, Hh. rewrite Nat.sub_0_r in Hr, Hh.
      apply app_inj_tail in Hr as [Hr Ha], Hh as [Hh Hb].
      specialize (IH i j ltac:(lia) ltac:(lia) Hr Hh Hok').
      pose proof (lev_diag r h i j). pose proof (cost_at_le_1 r h i j).
      simpl. lia.
    + destruct j as [|j]; [by destruct (hyp_side al)|].
      rewrite (take_pred_snoc h (S j)) in Hh by (fold m; lia).
      simpl in Hh. rewrite Nat.sub_0_r in Hh.
      apply app_inj_tail in Hh as [Hh Hb].
      change (ref_side al ++ [] = take i r) in Hr. rewrite app_nil_r in Hr.
      specialize (IH i j ltac:(lia) ltac:(lia) Hr Hh Hok').
      pose proof (lev_ins r h i j). simpl. lia.
    + destruct i as [|i]; [by destruct (ref_side al)|].
      rewrite (take_pred_snoc r (S i)) in Hr by (fold n; lia).
      simpl in Hr. rewrite Nat.sub_0_r in Hr.
      apply app_inj_tail in Hr as [Hr Ha].
      change (hyp_side al ++ [] = take j h) in Hh. rewrite app_nil_r in Hh.
      specialize (IH i j ltac:(lia) ltac:(lia) Hr Hh Hok').
      pose proof (lev_del r h i j). simpl. lia.
Qed.
End walk.

(** ** The alignment engine as a whole *)

(** With a budget of one iteration per token the function returns, and what it
    returns is read off the walk of the tie-break policy. *)
Lemma compute_measures_walk fuel r h :
  length r + length h ≤ fuel →
  compute_measures_local_fuel fuel r h =
  Ret (let w := walk_back (length r + length h) r h (length r) (length h) in
       Measures (count_op Sub w) (count_op Ins w) (count_op Del w) (count_op OK w)
                (length r)
                (wer_of (count_op Sub w) (count_op Ins w) (count_op Del w) (length r))
                (rev w)).
Proof.
  intros Hfuel. unfold compute_measures_local_fuel.
  destruct (build_dp_spec r h) as (dp & -> & _ & Hcells). simpl.
  rewrite (bt_loop_walk r h dp Hcells) by (simpl; lia). simpl.
  by rewrite walk_back_fuel by lia.
Qed.

Lemma compute_measures_local_walk r h :
  compute_measures_local r h =
  Ret (let w := walk_back (length r + length h) r h (length r) (length h) in
       Measures (count_op Sub w) (count_op Ins w) (count_op Del w) (count_op OK w)
                (length r)
                (wer_of (count_op Sub w) (count_op Ins w) (count_op Del w) (length r))
                (rev w)).
Proof. by apply compute_measures_walk. Qed.

Lemma walk_is_edit_script r h :
  edit_script r h (tiebreak_trace r h).
Proof.
  unfold edit_script, tiebreak_trace.
  destruct (walk_back_sides r h (length r + length h) (length r) (length h))
    as [Hr Hh]; [lia..|].
  rewrite Hr, Hh, !firstn_all. split; [done|]. split; [done|].
  intros a b Hin. apply elem_of_rev_1 in Hin.
  by eapply (walk_back_matches r h); [..|done]; lia.
Qed.

(** C1. For every reference [r] and hypothesis [h] the function returns, and
    the edit count it reports (substitutions + insertions + deletions) is the
    value the cost table holds at [dp[len(r)][len(h)]]; the returned trace is
    an edit script from [r] to [h] of exactly that cost, and no edit script
    from [r] to [h] costs less. *)
Theorem trace_realizes_minimum (r h : list string) :
  ∃ dp ms,
    build_dp r h = Ret dp ∧
    compute_measures_local r h = Ret ms ∧
    tget dp (length r) (length h) =
      Ret (substitutions ms + insertions ms + deletions ms) ∧
    edit_script r h (alignment ms) ∧
    script_cost (alignment ms) = substitutions ms + insertions ms + deletions ms ∧
    ∀ al, edit_script r h al →
          substitutions ms + insertions ms + deletions ms ≤ script_cost al.
Proof.
  destruct (build_dp_spec r h) as (dp & Hdp & _ & Hcells).
  exists dp. eexists. split; [done|].
  split; [apply compute_measures_local_walk|]. simpl.
  pose proof (walk_back_cost r h (length r + length h) (length r) (length h)
                ltac:(lia) ltac:(lia) ltac:(lia)) as Hcost.
  unfold script_cost in Hcost. rewrite Hcost.
  split; [apply Hcells; lia|].
  split; [apply walk_is_edit_script|].
  split; [unfold script_cost; rewrite !count_op_rev; lia|].
  intros al (Hr & Hh & Hok).
  apply (lev_lower_bound r h al); [lia|lia|by rewrite firstn_all..|done].
Qed.

(** C2. For every [r] and [h] the returned counts satisfy
    hits + substitutions + deletions = len(r),
    hits + substitutions + insertions = len(h), and the trace has
    hits + substitutions + insertions + deletions rows. *)
Theorem counts_invariant (r h : list string) :
  ∃ ms,
    compute_measures_local r h = Ret ms ∧
    hits ms + substitutions ms + deletions ms = length r ∧
    hits ms + substitutions ms + insertions ms = length h ∧
    length (alignment ms) =
      hits ms + substitutions ms + insertions ms + deletions ms.
Proof.
  eexists. split; [apply compute_measures_local_walk|]. simpl.
  destruct (walk_is_edit_script r h) as (Hr & Hh & _). unfold tiebreak_trace in *.
  set (w := walk_back _ _ _ _ _) in *.
  apply (f_equal length) in Hr, Hh.
  rewrite length_ref_side in Hr. rewrite length_hyp_side in Hh.
  rewrite !count_op_rev in Hr, Hh.
  rewrite length_rev, (count_op_total w). lia.
Qed.

(** C3. For every [r] and [h] the returned trace is the one obtained by
    walking the cost table back from [(n, m)] to [(0, 0)] under the
    specification's tie-break policy, and at every cell of the table other
    than [(0, 0)] the loop body takes the arm of the policy's choice: match
    when the diagonal cost is equal and the tokens are equal, else insertion
    when the cell is the left neighbour plus one, else deletion when it is the
    upper neighbour plus one, else substitution. *)
Theorem backtrace_follows_tiebreak (r h : list string) :
  ∃ dp ms,
    build_dp r h = Ret dp ∧
    compute_measures_local r h = Ret ms ∧
    alignment ms = tiebreak_trace r h ∧
    ∀ i j, i ≤ length r → j ≤ length h →
      tget dp i j = Ret (lev r h i j) ∧
      (0 < i ∨ 0 < j →
       bt_branch dp r h i j = Ret (branch_of (preferred_op r h i j))).
Proof.
  destruct (build_dp_spec r h) as (dp & Hdp & _ & Hcells).
  exists dp. eexists. split; [done|].
  split; [apply compute_measures_local_walk|]. simpl. split; [done|].
  intros i j Hi Hj. split; [by apply Hcells|].
  intros Hpos. by apply bt_branch_preferred.
Qed.

(** C4. For every [r] and [h], the reference-side tokens of the returned
    trace, insertions skipped, are exactly [r], and its hypothesis-side tokens,
    deletions skipped, are exactly [h]. *)
Theorem trace_roundtrip (r h : list string) :
  ∃ ms,
    compute_measures_local r h = Ret ms ∧
    ref_side (alignment ms) = r ∧
    hyp_side (alignment ms) = h.
Proof.
  eexists. split; [apply compute_measures_local_walk|]. simpl.
  destruct (walk_is_edit_script r h) as (Hr & Hh & _). done.
Qed.

(** C5. For every [r] and [h] the result has truth_length = len(r); its wer is
    (substitutions + insertions + deletions) / truth_length when
    truth_length > 0, which in Python is the binary64 value nearest to the
    quotient, and 0.0 when truth_length = 0, whatever the hypothesis;
    total_errors is substitutions + insertions + deletions.  For r = [] and
    h = ["a"] the wer is 0.0 with one insertion; for r = ["a"; "b"; "c"] and
    h = ["a"; "x"; "c"] it is 6004799503160661 / 2^54, the binary64 value
    nearest to 1/3. *)
Theorem wer_scale_correct (r h : list string) :
  (∃ ms,
    compute_measures_local r h = Ret ms ∧
    truth_length ms = length r ∧
    (0 < truth_length ms →
     wer ms = SFdiv 53 1024
                (int_operand (substitutions ms + insertions ms + deletions ms))
                (int_operand (truth_length ms))) ∧
    (truth_length ms = 0 → wer ms = float_zero) ∧
    total_errors ms = substitutions ms + insertions ms + deletions ms) ∧
  (∃ ms,
    compute_measures_local [] ["a"] = Ret ms ∧
    wer ms = float_zero ∧ insertions ms = 1) ∧
  (∃ ms,
    compute_measures_local ["a"; "b"; "c"] ["a"; "x"; "c"] = Ret ms ∧
    substitutions ms + insertions ms + deletions ms = 1 ∧ truth_length ms = 3 ∧
    wer ms = S754_finite false 6004799503160661 (-54)).
Proof.
  split; [|split].
  - eexists. split; [apply compute_measures_local_walk|].
    cbn [truth_length wer substitutions insertions deletions].
    split; [done|]. unfold wer_of. split; [|split; [|done]].
    + intros Hpos. by rewrite bool_decide_true.
    + intros Hz. rewrite bool_decide_false; [done|lia].
  - eexists. split; [vm_compute; reflexivity|]. done.
  - eexists. split; [vm_compute; reflexivity|]. done.
Qed.

(** C10. For every [r] and [h] the table is built, and at every cell
    [(i, j)] of it with [i > 0] or [j > 0] the cell equals the diagonal
    neighbour with equal tokens, or the left neighbour plus one, or the upper
    neighbour plus one, or the diagonal neighbour plus one; so the loop body
    takes one of its four primary arms, never the safety fallback, and the
    iteration strictly decreases [i + j].  Hence the loop ends within
    [len(r) + len(h)] iterations, at [(0, 0)], and a larger budget changes
    nothing. *)
Theorem fallback_unreachable (r h : list string) :
  ∃ dp,
    build_dp r h = Ret dp ∧
    (∀ i j, i ≤ length r → j ≤ length h → 0 < i ∨ 0 < j →
      (∃ x, tget dp i j = Ret x ∧
         ((0 < i ∧ 0 < j ∧ tget dp (i - 1) (j - 1) = Ret x ∧
           item r (i - 1) = item h (j - 1)) ∨
          (0 < j ∧ ∃ y, tget dp i (j - 1) = Ret y ∧ x = y + 1) ∨
          (0 < i ∧ ∃ y, tget dp (i - 1) j = Ret y ∧ x = y + 1) ∨
          (0 < i ∧ 0 < j ∧ ∃ y, tget dp (i - 1) (j - 1) = Ret y ∧ x = y + 1))) ∧
      (∃ b, bt_branch dp r h i j = Ret b ∧ b ≠ BFallback) ∧
      ∀ subs ins dels hits al,
        ∃ st', bt_step dp r h (BtState i j subs ins dels hits al) = Ret st' ∧
               bt_i st' ≤ length r ∧ bt_j st' ≤ length h ∧
               bt_i st' + bt_j st' < i + j) ∧
    ∀ fuel, length r + length h ≤ fuel →
      (∃ st, bt_loop fuel dp r h (BtState (length r) (length h) 0 0 0 0 []) = Ret st ∧
             bt_i st = 0 ∧ bt_j st = 0) ∧
      compute_measures_local_fuel fuel r h = compute_measures_local r h.
Proof.
  destruct (build_dp_spec r h) as (dp & Hdp & _ & Hcells).
  exists dp. split; [done|]. split.
  - intros i j Hi Hj Hpos.
    pose proof (preferred_op_spec r h i j Hi Hj Hpos) as Hop.
    split; [|split].
    + exists (lev r h i j). split; [by apply Hcells|].
      destruct (preferred_op r h i j).
      * left. destruct Hop as (? & ? & Hlev & Htok).
        split; [done|]. split; [done|]. split.
        -- rewrite Hlev. apply Hcells; lia.
        -- rewrite !item_token_at by lia. by rewrite Htok.
      * do 3 right. destruct Hop as (? & ? & Hlev).
        split; [done|]. split; [done|]. eexists. split; [apply Hcells; lia|done].
      * right; left. destruct Hop as (? & Hlev).
        split; [done|]. eexists. split; [apply Hcells; lia|done].
      * right; right; left. destruct Hop as (? & Hlev).
        split; [done|]. eexists. split; [apply Hcells; lia|done].
    + eexists. split; [by apply bt_branch_preferred|].
      by destruct (preferred_op r h i j).
    + intros subs ins dels hits al. eexists.
      split; [by apply (bt_step_advance r h dp Hcells)|].
      by apply (advance_decreases r h (BtState i j subs ins dels hits al)).
  - intros fuel Hfuel. split.
    + eexists. split; [apply (bt_loop_walk r h dp Hcells); simpl; lia|]. done.
    + rewrite compute_measures_walk by done. by rewrite compute_measures_local_walk.
Qed.

(** ** Further properties of the alignment engine *)

Lemma lev_le_max r h i j : lev r h i j ≤ i `max` j.
Proof.
  revert j. induction i as [|i IH]; intros j; [rewrite lev_0_l; lia|].
  induction j as [|j IHj]; [rewrite lev_0_r; lia|].
  pose proof (lev_diag r h i j). pose proof (cost_at_le_1 r h i j).
  specialize (IH j). lia.
Qed.

Lemma lev_refl r i : i ≤ length r → lev r r i i = 0.
Proof.
  induction i as [|i IH]; intros Hi; [done|].
  pose proof (lev_diag r r i i) as Hd.
  rewrite cost_at_tokens in Hd by lia. rewrite decide_True in Hd by done.
  rewrite IH in Hd by lia. lia.
Qed.

(** Rows of the walk carry the empty string on the side they lack. *)
Lemma walk_back_shape fuel r h i j (e : entry) :
  e ∈ walk_back fuel r h i j →
  (e.2 = Ins → e.1.1 = "") ∧ (e.2 = Del → e.1.2 = "").
Proof.
  revert i j. induction fuel as [|fuel IH]; intros i j; cbn [walk_back].
  - by intros ?%elem_of_nil.
  - case_bool_decide; [by intros ?%elem_of_nil|].
    destruct (preferred_op r h i j); intros [->|Hin]%elem_of_cons;
      try (by split); by eapply IH.
Qed.

Lemma count_op_zero_not_in o (al : list entry) (e : entry) :
  count_op o al = 0 → e ∈ al → e.2 ≠ o.
Proof.
  induction al as [|e' al IH]; [by intros _ ?%elem_of_nil|].
  rewrite count_op_cons. intros Hc [->|Hin]%elem_of_cons.
  - case_decide; [lia|done].
  - apply IH; [lia|done].
Qed.

(** A trace of matches only is the reference paired with itself. *)
Lemma all_matches_trace (al : list entry) :
  (∀ e, e ∈ al → e.2 = OK ∧ e.1.1 = e.1.2) →
  al = (λ t, (t, t, OK)) <$> ref_side al.
Proof.
  induction al as [|[[a b] o] al IH]; intros Hall; [done|].
  destruct (Hall (a, b, o)) as [Ho Hab]; [by left|]. simpl in Ho, Hab. subst o b.
  unfold ref_side. rewrite filter_cons_True by done. rewrite !fmap_cons. simpl.
  f_equal. apply IH. intros e He. apply Hall. by right.
Qed.

Lemma all_deletions_trace (al : list entry) :
  (∀ e, e ∈ al → e.2 = Del ∧ e.1.2 = "") →
  al = (λ t, (t, "", Del)) <$> ref_side al.
Proof.
  induction al as [|[[a b] o] al IH]; intros Hall; [done|].
  destruct (Hall (a, b, o)) as [Ho Hb]; [by left|]. simpl in Ho, Hb. subst o b.
  unfold ref_side. rewrite filter_cons_True by done. rewrite !fmap_cons. simpl.
  f_equal. apply IH. intros e He. apply Hall. by right.
Qed.

Lemma all_insertions_trace (al : list entry) :
  (∀ e, e ∈ al → e.2 = Ins ∧ e.1.1 = "") →
  al = (λ t, ("", t, Ins)) <$> hyp_side al.
Proof.
  induction al as [|[[a b] o] al IH]; intros Hall; [done|].
  destruct (Hall (a, b, o)) as [Ho Ha]; [by left|]. simpl in Ho, Ha. subst o a.
  unfold hyp_side. rewrite filter_cons_True by done. rewrite !fmap_cons. simpl.
  f_equal. apply IH. intros e He. apply Hall. by right.
Qed.

(** What the claims' lemmas give for the returned record, in one place. *)
Lemma compute_measures_facts r h :
  ∃ ms,
    compute_measures_local r h = Ret ms ∧
    truth_length ms = length r ∧
    wer ms = wer_of (substitutions ms) (insertions ms) (deletions ms) (length r) ∧
    substitutions ms + insertions ms + deletions ms = lev r h (length r) (length h) ∧
    hits ms + substitutions ms + deletions ms = length r ∧
    hits ms + substitutions ms + insertions ms = length h ∧
    substitutions ms = count_op Sub (alignment ms) ∧
    insertions ms = count_op Ins (alignment ms) ∧
    deletions ms = count_op Del (alignment ms) ∧
    hits ms = count_op OK (alignment ms) ∧
    edit_script r h (alignment ms) ∧
    ∀ e, e ∈ alignment ms → (e.2 = Ins → e.1.1 = "") ∧ (e.2 = Del → e.1.2 = "").
Proof.
  eexists. split; [apply compute_measures_local_walk|]. cbn zeta.
  set (w := walk_back _ r h _ _).
  cbn [truth_length wer substitutions insertions deletions hits alignment].
  pose proof (walk_is_edit_script r h) as Hes. unfold tiebreak_trace in Hes. fold w in Hes.
  pose proof (walk_back_cost r h (length r + length h) (length r) (length h)
                ltac:(lia) ltac:(lia) ltac:(lia)) as Hcost.
  fold w in Hcost. unfold script_cost in Hcost.
  destruct Hes as (Hr & Hh & Hok).
  pose proof (f_equal length Hr) as Hlr. pose proof (f_equal length Hh) as Hlh.
  rewrite length_ref_side in Hlr. rewrite length_hyp_side in Hlh.
  rewrite !count_op_rev in Hlr, Hlh. rewrite !count_op_rev.
  repeat split; try done; try lia.
  - intros Hop. apply elem_of_rev_1 in H.
    by apply (walk_back_shape _ _ _ _ _ _ H).
  - intros Hop. apply elem_of_rev_1 in H.
    by apply (walk_back_shape _ _ _ _ _ _ H).
Qed.

Lemma wer_of_no_errors truth_len : wer_of 0 0 0 truth_len = float_zero.
Proof.
  unfold wer_of. case_bool_decide as Hpos; [|done].
  destruct truth_len as [|n]; [lia|]. unfold int_operand.
  by destruct (N.of_nat (S n)) eqn:Hn; [lia|].
Qed.

(** Swapping the two sides of a trace: insertions become deletions. *)
Definition mirror_entry (e : entry) : entry :=
  (e.1.2, e.1.1,
   match e.2 with OK => OK | Sub => Sub | Ins => Del | Del => Ins end).

Lemma mirror_sides (al : list entry) :
  ref_side (mirror_entry <$> al) = hyp_side al ∧
  hyp_side (mirror_entry <$> al) = ref_side al.
Proof.
  induction al as [|[[a b] o] al [IH1 IH2]]; [done|].
  rewrite fmap_cons. unfold ref_side, hyp_side in *. rewrite !filter_cons.
  unfold mirror_entry at 1 3. cbn [fst snd].
  destruct o; repeat case_decide; try done; rewrite ?fmap_cons; cbn [fst snd];
    by rewrite ?IH1, ?IH2.
Qed.

Lemma mirror_cost (al : list entry) :
  script_cost (mirror_entry <$> al) = script_cost al.
Proof.
  unfold script_cost. induction al as [|[[a b] o] al IH]; [done|].
  rewrite fmap_cons, !count_op_cons. unfold mirror_entry at 1 2 3. cbn [fst snd].
  destruct o; repeat case_decide; try done; lia.
Qed.

Lemma mirror_edit_script r h al :
  edit_script r h al → edit_script h r (mirror_entry <$> al).
Proof.
  intros (Hr & Hh & Hok). destruct (mirror_sides al) as [H1 H2].
  split; [by rewrite H1|]. split; [by rewrite H2|].
  intros a b ([[a' b'] o] & Heq & Hin)%list_elem_of_fmap.
  unfold mirror_entry in Heq. cbn [fst snd] in Heq.
  destruct o; simplify_eq. symmetry. by apply Hok.
Qed.

Lemma lev_symmetric r h :
  lev r h (length r) (length h) = lev h r (length h) (length r).
Proof.
  assert (∀ r h, lev h r (length h) (length r) ≤ lev r h (length r) (length h)) as Hle.
  { clear. intros r h.
    pose proof (walk_is_edit_script r h) as Hes.
    apply mirror_edit_script in Hes. destruct Hes as (Hr & Hh & Hok).
    pose proof (lev_lower_bound h r _ (length h) (length r) ltac:(lia) ltac:(lia)
                  ltac:(by rewrite firstn_all) ltac:(by rewrite firstn_all) Hok) as Hlb.
    rewrite mirror_cost in Hlb. unfold tiebreak_trace, script_cost in Hlb.
    rewrite !count_op_rev in Hlb.
    pose proof (walk_back_cost r h (length r + length h) (length r) (length h)
                  ltac:(lia) ltac:(lia) ltac:(lia)) as Hcost.
    unfold script_cost in Hcost. lia. }
  apply Nat.le_antisymm; apply Hle.
Qed.

(** X1. Aligning a sequence with itself returns no substitution, insertion or
    deletion, [len(r)] hits, a wer of zero, and the trace that pairs every
    token with itself under the tag ["OK"]. *)
Theorem identical_sequences_no_errors (r : list string) :
  ∃ ms,
    compute_measures_local r r = Ret ms ∧
    substitutions ms = 0 ∧ insertions ms = 0 ∧ deletions ms = 0 ∧
    hits ms = length r ∧
    wer ms = float_zero ∧
    alignment ms = (λ t, (t, t, OK)) <$> r.
Proof.
  destruct (compute_measures_facts r r)
    as (ms & Hms & Htl & Hwer & Htot & Hr & Hh & Hs & Hi & Hd & Hk & Hes & Hshape).
  exists ms. split; [done|]. rewrite lev_refl in Htot by done.
  assert (substitutions ms = 0) as Hs0 by lia.
  assert (insertions ms = 0) as Hi0 by lia.
  assert (deletions ms = 0) as Hd0 by lia.
  repeat split; try lia.
  - rewrite Hwer, Hs0, Hi0, Hd0. apply wer_of_no_errors.
  - destruct Hes as (Href & _ & Hok).
    etrans; [apply all_matches_trace|by rewrite Href]. intros [[a b] o] He.
    assert (o = OK) as ->.
    { pose proof (count_op_zero_not_in Sub (alignment ms) _ ltac:(lia) He).
      pose proof (count_op_zero_not_in Ins (alignment ms) _ ltac:(lia) He).
      pose proof (count_op_zero_not_in Del (alignment ms) _ ltac:(lia) He).
      by destruct o. }
    split; [done|]. by apply Hok.
Qed.

(** X2. The reported edit count never exceeds the longer of the two
    sequences and is at least the difference of their lengths; insertions and
    deletions differ by exactly that difference. *)
Theorem error_count_bounds (r h : list string) :
  ∃ ms,
    compute_measures_local r h = Ret ms ∧
    total_errors ms ≤ length r `max` length h ∧
    length r - length h ≤ total_errors ms ∧
    length h - length r ≤ total_errors ms ∧
    insertions ms + length r = deletions ms + length h.
Proof.
  destruct (compute_measures_facts r h)
    as (ms & Hms & Htl & Hwer & Htot & Hr & Hh & _).
  exists ms. split; [done|]. unfold total_errors.
  pose proof (lev_le_max r h (length r) (length h)). lia.
Qed.

(** X3. Exchanging reference and hypothesis leaves the reported edit count
    unchanged. *)
Theorem error_count_symmetric (r h : list string) :
  ∃ ms1 ms2,
    compute_measures_local r h = Ret ms1 ∧
    compute_measures_local h r = Ret ms2 ∧
    total_errors ms1 = total_errors ms2.
Proof.
  destruct (compute_measures_facts r h) as (ms1 & Hms1 & _ & _ & Htot1 & _).
  destruct (compute_measures_facts h r) as (ms2 & Hms2 & _ & _ & Htot2 & _).
  exists ms1, ms2. split; [done|]. split; [done|].
  unfold total_errors. rewrite Htot1, Htot2. apply lev_symmetric.
Qed.

(** X4. Against an empty hypothesis every reference token is a deletion: the
    trace is one ["D"] row per reference token, in order, and nothing else is
    counted.  Against an empty reference every hypothesis token is an
    insertion and the wer is zero. *)
Theorem empty_side_alignment (t : list string) :
  (∃ ms,
    compute_measures_local t [] = Ret ms ∧
    substitutions ms = 0 ∧ insertions ms = 0 ∧ hits ms = 0 ∧
    deletions ms = length t ∧
    alignment ms = (λ a, (a, "", Del)) <$> t) ∧
  (∃ ms,
    compute_measures_local [] t = Ret ms ∧
    substitutions ms = 0 ∧ deletions ms = 0 ∧ hits ms = 0 ∧
    insertions ms = length t ∧
    wer ms = float_zero ∧
    alignment ms = (λ a, ("", a, Ins)) <$> t).
Proof.
  split.
  - destruct (compute_measures_facts t [])
      as (ms & Hms & Htl & Hwer & Htot & Hr & Hh & Hs & Hi & Hd & Hk & Hes & Hshape).
    exists ms. split; [done|]. simpl in Hh.
    repeat split; try lia.
    destruct Hes as (Href & _ & _).
    etrans; [apply all_deletions_trace|by rewrite Href]. intros [[a b] o] He.
    assert (o = Del) as ->.
    { pose proof (count_op_zero_not_in Sub (alignment ms) _ ltac:(lia) He).
      pose proof (count_op_zero_not_in Ins (alignment ms) _ ltac:(lia) He).
      pose proof (count_op_zero_not_in OK (alignment ms) _ ltac:(lia) He).
      by destruct o. }
    split; [done|]. by apply (Hshape _ He).
  - destruct (compute_measures_facts [] t)
      as (ms & Hms & Htl & Hwer & Htot & Hr & Hh & Hs & Hi & Hd & Hk & Hes & Hshape).
    exists ms. split; [done|]. simpl in Hr.
    repeat split; try lia.
    + rewrite Hwer. reflexivity.
    + destruct Hes as (_ & Hhyp & _).
      etrans; [apply all_insertions_trace|by rewrite Hhyp]. intros [[a b] o] He.
      assert (o = Ins) as ->.
      { pose proof (count_op_zero_not_in Sub (alignment ms) _ ltac:(lia) He).
        pose proof (count_op_zero_not_in Del (alignment ms) _ ltac:(lia) He).
        pose proof (count_op_zero_not_in OK (alignment ms) _ ltac:(lia) He).
        by destruct o. }
      split; [done|]. by apply (Hshape _ He).
Qed.

(** ** Facts about strings and paths *)

Lemma chars_str l : chars (str l) = l.
Proof. apply String.list_ascii_of_string_of_list_ascii. Qed.

Lemma str_chars s : str (chars s) = s.
Proof. apply String.string_of_list_ascii_of_string. Qed.

Lemma chars_inj s1 s2 : chars s1 = chars s2 → s1 = s2.
Proof. intros H. by rewrite <- (str_chars s1), <- (str_chars s2), H. Qed.

Lemma chars_app s1 s2 : chars (s1 +:+ s2) = chars s1 ++ chars s2.
Proof.
  induction s1 as [|c s1 IH]; [done|].
  change (String c s1 +:+ s2) with (String c (s1 +:+ s2)).
  unfold chars in *. cbn [String.list_ascii_of_string]. by rewrite IH.
Qed.

Lemma str_app l1 l2 : str (l1 ++ l2) = str l1 +:+ str l2.
Proof. apply chars_inj. by rewrite chars_app, !chars_str. Qed.

Lemma len_app s1 s2 : len (s1 +:+ s2) = len s1 + len s2.
Proof. unfold len. by rewrite chars_app, length_app. Qed.

Lemma app_empty_r s : s +:+ "" = s.
Proof. apply chars_inj. rewrite chars_app. apply app_nil_r. Qed.

Lemma app_assoc_str s1 s2 s3 : (s1 +:+ s2) +:+ s3 = s1 +:+ (s2 +:+ s3).
Proof. apply chars_inj. rewrite !chars_app. by rewrite app_assoc. Qed.

Lemma app_inv_head_str s t1 t2 : s +:+ t1 = s +:+ t2 → t1 = t2.
Proof.
  intros H. apply chars_inj. apply (f_equal chars) in H.
  rewrite !chars_app in H. by apply app_inv_head in H.
Qed.

Lemma app_inv_tail_str s1 s2 t : s1 +:+ t = s2 +:+ t → s1 = s2.
Proof.
  intros H. apply chars_inj. apply (f_equal chars) in H.
  rewrite !chars_app in H. by apply app_inv_tail in H.
Qed.

Lemma endswith_true s p : endswith s p = true ↔ ∃ x, s = x +:+ p.
Proof.
  unfold endswith. rewrite bool_decide_eq_true. split.
  - intros [k Hk]. exists (str k). apply chars_inj.
    by rewrite chars_app, chars_str.
  - intros [x ->]. exists (chars x). apply chars_app.
Qed.

Lemma startswith_true s p : startswith s p = true ↔ ∃ x, s = p +:+ x.
Proof.
  unfold startswith. rewrite bool_decide_eq_true. split.
  - intros [k Hk]. exists (str k). apply chars_inj.
    by rewrite chars_app, chars_str.
  - intros [x ->]. exists (chars x). apply chars_app.
Qed.

Lemma endswith_app x p : endswith (x +:+ p) p = true.
Proof. apply endswith_true. by exists x. Qed.

Lemma startswith_app p x : startswith (p +:+ x) p = true.
Proof. apply startswith_true. by exists x. Qed.

(** Two endings of one string: one is an ending of the other. *)
Lemma endswith_app_inv x p q :
  endswith (x +:+ q) p = true → endswith q p = true ∨ endswith p q = true.
Proof.
  unfold endswith. rewrite !bool_decide_eq_true, chars_app. intros Hp.
  assert (chars q `suffix_of` chars x ++ chars q) as Hq by (by exists (chars x)).
  destruct (suffix_weak_total _ _ _ Hp Hq); auto.
Qed.

Lemma endswith_app_same x y p :
  endswith (x +:+ p) (y +:+ p) = endswith x y.
Proof.
  unfold endswith. apply bool_decide_ext. rewrite !chars_app.
  split; [apply suffix_app_inv | apply suffix_app].
Qed.

Lemma slice_to_neg_app x p : p ≠ "" → slice_to_neg (len p) (x +:+ p) = x.
Proof.
  intros Hp. unfold slice_to_neg. rewrite decide_False.
  - rewrite len_app, chars_app. replace (len x + len p - len p) with (length (chars x))
      by (unfold len; lia).
    by rewrite take_app_length, str_chars.
  - intros Hz. apply Hp, chars_inj. unfold len in Hz.
    by apply length_zero_iff_nil in Hz.
Qed.

Lemma slice_from_app p x : slice_from (len p) (p +:+ x) = x.
Proof.
  unfold slice_from, len. by rewrite chars_app, drop_app_length, str_chars.
Qed.

Lemma lower_app s1 s2 : lower (s1 +:+ s2) = lower s1 +:+ lower s2.
Proof. unfold lower. by rewrite chars_app, fmap_app, str_app. Qed.

Lemma after_last_slash_id l : slash ∉ l → after_last_slash l = l.
Proof.
  destruct l as [|c l]; [done|]. intros Hnin. cbn [after_last_slash].
  rewrite bool_decide_false by (intros ?; apply Hnin; by right).
  rewrite bool_decide_false; [done|]. intros ->. apply Hnin. by left.
Qed.

Lemma after_last_slash_app k l :
  slash ∉ l → after_last_slash (k ++ slash :: l) = l.
Proof.
  intros Hnin. induction k as [|c k IH]; simpl.
  - by rewrite bool_decide_false.
  - rewrite bool_decide_true; [done|]. apply elem_of_app. right. by left.
Qed.

(** A directory entry: a name without a slash. *)
Definition entry_name (name : string) : Prop := slash ∉ chars name.

Lemma entry_name_not_absolute name : entry_name name → startswith name "/" = false.
Proof.
  intros Hn. apply not_true_iff_false. intros [x ->]%startswith_true.
  apply Hn. rewrite chars_app. apply elem_of_app. left. by left.
Qed.

Lemma path_basename_join d name :
  entry_name name → path_basename (path_join d name) = name.
Proof.
  intros Hn. unfold path_join, path_basename.
  rewrite entry_name_not_absolute by done.
  destruct (bool_decide (d = "")) eqn:Hd; simpl.
  - apply bool_decide_eq_true in Hd as ->.
    change ("" +:+ name) with name. by rewrite after_last_slash_id, str_chars.
  - destruct (endswith d "/") eqn:He.
    + apply endswith_true in He as [x ->].
      rewrite !chars_app. change (chars "/") with [slash].
      rewrite <- app_assoc. simpl.
      by rewrite after_last_slash_app, str_chars.
    + rewrite !chars_app. change (chars "/") with [slash]. simpl.
      by rewrite after_last_slash_app, str_chars.
Qed.

Lemma path_join_inj d n1 n2 :
  entry_name n1 → entry_name n2 → path_join d n1 = path_join d n2 → n1 = n2.
Proof.
  intros H1 H2 Heq. apply (f_equal path_basename) in Heq.
  by rewrite !path_basename_join in Heq.
Qed.

(** ** The reference resolver *)

Lemma endswith_other_suffix x p q :
  endswith q p = false → endswith p q = false → endswith (x +:+ q) p = false.
Proof.
  intros H1 H2. apply not_true_iff_false. intros H.
  apply endswith_app_inv in H as [H|H]; congruence.
Qed.

Lemma basename_ref_token x : _basename_from_ref_filename (x +:+ "_ref.token.txt") = x.
Proof.
  unfold _basename_from_ref_filename, REF_TOKEN_SUFFIXES. cbn [strip_known_suffix].
  rewrite endswith_app. by apply slice_to_neg_app.
Qed.

Lemma basename_reference_token x :
  _basename_from_ref_filename (x +:+ "_reference.token.txt") = x.
Proof.
  unfold _basename_from_ref_filename, REF_TOKEN_SUFFIXES. cbn [strip_known_suffix].
  rewrite (endswith_other_suffix x "_ref.token.txt") by (by vm_compute).
  rewrite endswith_app. by apply slice_to_neg_app.
Qed.

Lemma basename_ref_txt x : _basename_from_ref_filename (x +:+ "_ref.txt") = x.
Proof.
  unfold _basename_from_ref_filename, REF_TOKEN_SUFFIXES. cbn [strip_known_suffix].
  rewrite (endswith_other_suffix x "_ref.token.txt") by (by vm_compute).
  rewrite (endswith_other_suffix x "_reference.token.txt") by (by vm_compute).
  rewrite endswith_app. by apply slice_to_neg_app.
Qed.

(** X5. The sample identifier is recovered from a reference file name: for
    every [x], stripping [x + "_ref.token.txt"], [x + "_reference.token.txt"]
    or [x + "_ref.txt"] gives back [x], also when [x] itself contains one of
    the suffixes; whatever is returned for a name with a known suffix, put
    back before that suffix, is the name. *)
Theorem basename_from_ref_filename_roundtrip (x : string) :
  _basename_from_ref_filename (x +:+ "_ref.token.txt") = x ∧
  _basename_from_ref_filename (x +:+ "_reference.token.txt") = x ∧
  _basename_from_ref_filename (x +:+ "_ref.txt") = x ∧
  ∀ fname suf, suf ∈ REF_TOKEN_SUFFIXES → endswith fname suf = true →
    ∃ suf', suf' ∈ REF_TOKEN_SUFFIXES ∧
            _basename_from_ref_filename fname +:+ suf' = fname.
Proof.
  split; [apply basename_ref_token|]. split; [apply basename_reference_token|].
  split; [apply basename_ref_txt|].
  intros fname suf Hsuf [y ->]%endswith_true.
  exists suf. split; [done|].
  unfold REF_TOKEN_SUFFIXES in Hsuf.
  apply elem_of_cons in Hsuf as [->|Hsuf]; [by rewrite basename_ref_token|].
  apply elem_of_cons in Hsuf as [->|Hsuf]; [by rewrite basename_reference_token|].
  apply list_elem_of_singleton in Hsuf as ->. by rewrite basename_ref_txt.
Qed.

(** The key under which a path found by [glob] is filed. *)
Definition ref_key (p : string) : string :=
  _basename_from_ref_filename (path_basename p).

(** The bodies of the first loop and of the two later loops. *)
Definition put_always (refs : gmap string string) (p : string) : gmap string string :=
  <[ref_key p := p]> refs.
Definition put_if_absent (refs : gmap string string) (p : string) : gmap string string :=
  if decide (is_Some (refs !! ref_key p)) then refs else <[ref_key p := p]> refs.

Lemma build_reference_map_folds d names matching :
  build_reference_map d (Some names) matching =
  let dirs := searched_dirs d names matching in
  foldl put_if_absent
    (foldl put_if_absent
       (foldl put_always ∅ (glob_suffix dirs "_ref.token.txt"))
       (glob_suffix dirs "_reference.token.txt"))
    (glob_suffix dirs "_ref.txt").
Proof. reflexivity. Qed.

Lemma foldl_put_always_none (l : list string) (m : gmap string string) k :
  (∀ p, p ∈ l → ref_key p ≠ k) → foldl put_always m l !! k = m !! k.
Proof.
  revert m. induction l as [|q l IH]; intros m Hne; [done|]. cbn [foldl].
  rewrite IH by (intros p Hp; apply Hne; by right).
  unfold put_always. apply lookup_insert_ne. apply Hne. by left.
Qed.

Lemma foldl_put_always_some (l : list string) (m : gmap string string) k p :
  p ∈ l → ref_key p = k → (∀ q, q ∈ l → ref_key q = k → q = p) →
  foldl put_always m l !! k = Some p.
Proof.
  revert m. induction l as [|q l IH]; intros m Hin Hk Huniq; [by apply elem_of_nil in Hin|].
  cbn [foldl]. destruct (decide (p ∈ l)) as [Hl|Hnl].
  - apply IH; [done..|]. intros q' Hq'. apply Huniq. by right.
  - apply elem_of_cons in Hin as [->|?]; [|done].
    rewrite foldl_put_always_none.
    + unfold put_always. rewrite Hk. apply lookup_insert_eq.
    + intros q' Hq' Hkq'. apply Hnl. rewrite <- (Huniq q'); [done|by right|done].
Qed.

Lemma foldl_put_if_absent_keep (l : list string) (m : gmap string string) k v :
  m !! k = Some v → foldl put_if_absent m l !! k = Some v.
Proof.
  revert m. induction l as [|q l IH]; intros m Hm; [done|]. cbn [foldl].
  apply IH. unfold put_if_absent. case_decide as Hq; [done|].
  rewrite lookup_insert_ne; [done|]. intros Heq. apply Hq. by rewrite Heq, Hm.
Qed.

Lemma foldl_put_if_absent_none (l : list string) (m : gmap string string) k :
  (∀ p, p ∈ l → ref_key p ≠ k) → foldl put_if_absent m l !! k = m !! k.
Proof.
  revert m. induction l as [|q l IH]; intros m Hne; [done|]. cbn [foldl].
  rewrite IH by (intros p Hp; apply Hne; by right).
  unfold put_if_absent. case_decide; [done|].
  apply lookup_insert_ne. apply Hne. by left.
Qed.

Lemma foldl_put_if_absent_some (l : list string) (m : gmap string string) k p :
  m !! k = None → p ∈ l → ref_key p = k → (∀ q, q ∈ l → ref_key q = k → q = p) →
  foldl put_if_absent m l !! k = Some p.
Proof.
  revert m. induction l as [|q l IH]; intros m Hm Hin Hk Huniq;
    [by apply elem_of_nil in Hin|].
  cbn [foldl]. destruct (decide (ref_key q = k)) as [Hq|Hq].
  - assert (q = p) as -> by (apply Huniq; [by left|done]).
    apply foldl_put_if_absent_keep. unfold put_if_absent.
    rewrite Hk, Hm. rewrite decide_False by (by intros [? ?]).
    apply lookup_insert_eq.
  - apply IH.
    + unfold put_if_absent. case_decide; [done|]. by rewrite lookup_insert_ne.
    + apply elem_of_cons in Hin as [Heq|?]; [congruence|done].
    + done.
    + intros q' Hq'. apply Huniq. by right.
Qed.

Lemma elem_of_glob_in_dir suf dir p :
  p ∈ glob_in_dir suf dir ↔
  ∃ name, name ∈ dir.2 ∧ startswith name "." = false ∧ endswith name suf = true ∧
          p = path_join dir.1 name.
Proof.
  unfold glob_in_dir. rewrite list_elem_of_fmap. split.
  - intros (name & -> & ([Hdot Hsuf] & Hin)%list_elem_of_filter). by exists name.
  - intros (name & Hin & Hdot & Hsuf & ->). exists name. split; [done|].
    apply list_elem_of_filter. done.
Qed.

Lemma elem_of_glob_suffix dirs suf p :
  p ∈ glob_suffix dirs suf ↔
  ∃ dir name, dir ∈ dirs ∧ name ∈ dir.2 ∧ startswith name "." = false ∧
              endswith name suf = true ∧ p = path_join dir.1 name.
Proof.
  unfold glob_suffix. rewrite list_elem_of_bind. split.
  - intros (dir & (name & ?)%elem_of_glob_in_dir & Hdir). exists dir, name. tauto.
  - intros (dir & name & Hdir & ?). exists dir. split; [|done].
    apply elem_of_glob_in_dir. by exists name.
Qed.

Lemma elem_of_glob_suffix_one dirname names suf p :
  p ∈ glob_suffix [(dirname, names)] suf ↔
  ∃ name, name ∈ names ∧ startswith name "." = false ∧ endswith name suf = true ∧
          p = path_join dirname name.
Proof.
  rewrite elem_of_glob_suffix. split.
  - intros (dir & name & ->%list_elem_of_singleton & ?). by exists name.
  - intros (name & ?). exists (dirname, names), name. split; [|done].
    by apply list_elem_of_singleton.
Qed.

(** A directory name without metacharacters is searched as it is. *)
Lemma rstrip_slash_rev_subseteq l c : c ∈ rstrip_slash_rev l → c ∈ l.
Proof.
  induction l as [|x l IH]; [done|]. cbn [rstrip_slash_rev].
  case_bool_decide; [|done]. intros Hc. right. by apply IH.
Qed.

Lemma has_magic_false s : has_magic s = false ↔ ∀ c, c ∈ chars s → magic_char c = false.
Proof.
  unfold has_magic. rewrite <- not_true_iff_false, existsb_exists. split.
  - intros Hno c Hc. apply not_true_iff_false. intros Hm. apply Hno.
    exists c. split; [by apply list_elem_of_In|done].
  - intros Hall (c & Hc%list_elem_of_In & Hm). by rewrite Hall in Hm.
Qed.

Lemma has_magic_glob_dirname d : has_magic d = false → has_magic (glob_dirname d) = false.
Proof.
  rewrite !has_magic_false. intros Hall c. unfold glob_dirname.
  destruct (forallb _ _); [apply Hall|].
  rewrite chars_str. intros Hc. apply Hall.
  apply elem_of_rev_1 in Hc. apply rstrip_slash_rev_subseteq in Hc.
  by apply elem_of_rev_1 in Hc.
Qed.

Lemma searched_dirs_literal d names matching :
  has_magic d = false → searched_dirs d names matching = [(glob_dirname d, names)].
Proof. intros Hd. unfold searched_dirs. by rewrite has_magic_glob_dirname. Qed.

Lemma startswith_dot_app x y :
  startswith (x +:+ y) "." =
  if bool_decide (x = "") then startswith y "." else startswith x ".".
Proof.
  destruct x as [|c x]; [done|].
  rewrite bool_decide_false by done.
  unfold startswith. apply bool_decide_ext.
  change (String c x +:+ y) with (String c (x +:+ y)).
  unfold chars. cbn [String.list_ascii_of_string].
  split; intros [k Hk]; simplify_eq/=; by eexists.
Qed.

(** Each suffix of [REF_TOKEN_SUFFIXES] is stripped as such, and none starts
    with a dot. *)
Definition own_suffix (suf : string) : Prop :=
  (∀ y, _basename_from_ref_filename (y +:+ suf) = y) ∧ startswith suf "." = false.

Lemma known_suffix_own suf : suf ∈ REF_TOKEN_SUFFIXES → own_suffix suf.
Proof.
  unfold REF_TOKEN_SUFFIXES. intros Hsuf.
  apply elem_of_cons in Hsuf as [->|Hsuf];
    [split; [apply basename_ref_token|done]|].
  apply elem_of_cons in Hsuf as [->|Hsuf];
    [split; [apply basename_reference_token|done]|].
  apply list_elem_of_singleton in Hsuf as ->.
  split; [apply basename_ref_txt|done].
Qed.

Lemma hidden_with_suffix x suf :
  own_suffix suf → startswith (x +:+ suf) "." = startswith x ".".
Proof.
  intros [_ Hsuf]. rewrite startswith_dot_app. case_bool_decide as Hx; [|done].
  by rewrite Hx, Hsuf.
Qed.

Lemma ref_key_join d name :
  entry_name name → ref_key (path_join d name) = _basename_from_ref_filename name.
Proof. intros Hn. unfold ref_key. by rewrite path_basename_join. Qed.

Section one_glob.
Context (dirname : string) (names : list string) (suf : string).
Hypothesis names_entries : Forall entry_name names.
Hypothesis suf_own : own_suffix suf.

Lemma glob_key p x :
  p ∈ glob_suffix [(dirname, names)] suf → ref_key p = x →
  startswith x "." = false ∧ x +:+ suf ∈ names ∧
  p = path_join dirname (x +:+ suf).
Proof.
  intros (name & Hin & Hvis & [y ->]%endswith_true & ->)%elem_of_glob_suffix_one Hk.
  rewrite ref_key_join in Hk by (by eapply Forall_forall in names_entries).
  rewrite hidden_with_suffix in Hvis by done.
  destruct suf_own as [Hstrip _]. rewrite Hstrip in Hk. by subst y.
Qed.

Lemma glob_hit x :
  startswith x "." = false → x +:+ suf ∈ names →
  path_join dirname (x +:+ suf) ∈ glob_suffix [(dirname, names)] suf ∧
  ref_key (path_join dirname (x +:+ suf)) = x.
Proof.
  intros Hx Hin. split.
  - apply elem_of_glob_suffix_one. exists (x +:+ suf).
    by rewrite hidden_with_suffix, endswith_app.
  - rewrite ref_key_join by (by eapply Forall_forall in names_entries).
    by destruct suf_own as [-> _].
Qed.

Lemma glob_miss x :
  startswith x "." = true ∨ x +:+ suf ∉ names →
  ∀ p, p ∈ glob_suffix [(dirname, names)] suf → ref_key p ≠ x.
Proof.
  intros Hx p Hp Hk. destruct (glob_key p x Hp Hk) as (Hvis & Hin & _).
  destruct Hx; [congruence|done].
Qed.

(** The entry for [x] after a loop that always stores. *)
Lemma lookup_put_always (m : gmap string string) x :
  foldl put_always m (glob_suffix [(dirname, names)] suf) !! x =
  if startswith x "." then m !! x
  else if decide (x +:+ suf ∈ names)
       then Some (path_join dirname (x +:+ suf))
       else m !! x.
Proof.
  destruct (startswith x ".") eqn:Hx.
  { apply foldl_put_always_none, glob_miss. by left. }
  case_decide as Hin.
  - destruct (glob_hit x Hx Hin) as [Hp Hk].
    apply foldl_put_always_some; [done..|].
    intros q Hq Hkq. by destruct (glob_key q x Hq Hkq) as (_ & _ & ->).
  - apply foldl_put_always_none, glob_miss. by right.
Qed.

(** The entry for [x] after a loop that stores under absent keys only. *)
Lemma lookup_put_if_absent (m : gmap string string) x :
  foldl put_if_absent m (glob_suffix [(dirname, names)] suf) !! x =
  match m !! x with
  | Some p => Some p
  | None =>
      if startswith x "." then None
      else if decide (x +:+ suf ∈ names)
           then Some (path_join dirname (x +:+ suf))
           else None
  end.
Proof.
  destruct (m !! x) as [p|] eqn:Hm; [by apply foldl_put_if_absent_keep|].
  destruct (startswith x ".") eqn:Hx.
  { rewrite <- Hm. apply foldl_put_if_absent_none, glob_miss. by left. }
  case_decide as Hin.
  - destruct (glob_hit x Hx Hin) as [Hp Hk].
    apply foldl_put_if_absent_some; [done..|].
    intros q Hq Hkq. by destruct (glob_key q x Hq Hkq) as (_ & _ & ->).
  - rewrite <- Hm. apply foldl_put_if_absent_none, glob_miss. by right.
Qed.

End one_glob.

Lemma build_reference_map_lookup (samples_dir : string) (names : list string)
    (matching : list (string * list string)) (x : string) :
  has_magic samples_dir = false →
  Forall entry_name names →
  build_reference_map samples_dir (Some names) matching !! x =
    if startswith x "." then None
    else if decide (x +:+ "_ref.token.txt" ∈ names)
    then Some (path_join (glob_dirname samples_dir) (x +:+ "_ref.token.txt"))
    else if decide (x +:+ "_reference.token.txt" ∈ names)
    then Some (path_join (glob_dirname samples_dir) (x +:+ "_reference.token.txt"))
    else if decide (x +:+ "_ref.txt" ∈ names)
    then Some (path_join (glob_dirname samples_dir) (x +:+ "_ref.txt"))
    else None.
Proof.
  intros Hplain Hnames. rewrite build_reference_map_folds. cbn zeta.
  rewrite searched_dirs_literal by done.
  rewrite !lookup_put_if_absent, lookup_put_always, lookup_empty
    by (done || (apply known_suffix_own; unfold REF_TOKEN_SUFFIXES;
         rewrite !elem_of_cons; auto)).
  destruct (startswith x "."); [done|].
  repeat case_decide; done.
Qed.

(** X6. The preference order of the reference map.  When the name of the
    samples directory has none of the characters [*], [?] and [[], which
    [glob] would read as a pattern, and the entries of the directory are
    plain names, the reference of sample [x] is the file
    [x + "_ref.token.txt"] if the directory has it, otherwise
    [x + "_reference.token.txt"], otherwise [x + "_ref.txt"], each joined to
    the directory; there is no entry for [x] when none of the three exists,
    and none for an [x] that starts with a dot, whose files the search
    pattern skips. *)
Theorem reference_priority (samples_dir : string) (names : list string)
    (matching : list (string * list string)) (x : string) :
  has_magic samples_dir = false →
  Forall entry_name names →
  build_reference_map samples_dir (Some names) matching !! x =
    if startswith x "." then None
    else if decide (x +:+ "_ref.token.txt" ∈ names)
    then Some (path_join (glob_dirname samples_dir) (x +:+ "_ref.token.txt"))
    else if decide (x +:+ "_reference.token.txt" ∈ names)
    then Some (path_join (glob_dirname samples_dir) (x +:+ "_reference.token.txt"))
    else if decide (x +:+ "_ref.txt" ∈ names)
    then Some (path_join (glob_dirname samples_dir) (x +:+ "_ref.txt"))
    else None.
Proof. apply build_reference_map_lookup. Qed.

#[global] Instance entry_name_dec name : Decision (entry_name name).
Proof. unfold entry_name. apply _. Defined.

Lemma reference_priority_witness :
  has_magic "samples" = false ∧
  Forall entry_name ["b_ref.txt"; "a_ref.txt"; "b_reference.token.txt"; ".c_ref.txt"] ∧
  build_reference_map "samples"
    (Some ["b_ref.txt"; "a_ref.txt"; "b_reference.token.txt"; ".c_ref.txt"]) [] !! "b"
  = if startswith "b" "." then None
    else if decide ("b" +:+ "_ref.token.txt" ∈
                    ["b_ref.txt"; "a_ref.txt"; "b_reference.token.txt"; ".c_ref.txt"])
    then Some (path_join (glob_dirname "samples") ("b" +:+ "_ref.token.txt"))
    else if decide ("b" +:+ "_reference.token.txt" ∈
                    ["b_ref.txt"; "a_ref.txt"; "b_reference.token.txt"; ".c_ref.txt"])
    then Some (path_join (glob_dirname "samples") ("b" +:+ "_reference.token.txt"))
    else if decide ("b" +:+ "_ref.txt" ∈
                    ["b_ref.txt"; "a_ref.txt"; "b_reference.token.txt"; ".c_ref.txt"])
    then Some (path_join (glob_dirname "samples") ("b" +:+ "_ref.txt"))
    else None.
Proof.
  split; [reflexivity|].
  split; [by apply (bool_decide_unpack _); vm_compute|].
  apply reference_priority; [reflexivity|].
  by apply (bool_decide_unpack _); vm_compute.
Defined.

(** What every entry of the map satisfies: it is filed under its own key and
    comes from one of the three searches. *)
Definition filed_from (found : string → Prop) (refs : gmap string string) : Prop :=
  ∀ k p, refs !! k = Some p → ref_key p = k ∧ found p.

Lemma filed_from_insert found refs p :
  filed_from found refs → found p → filed_from found (<[ref_key p := p]> refs).
Proof.
  intros Hm Hp k q. destruct (decide (ref_key p = k)) as [<-|Hne].
  - rewrite lookup_insert_eq. by intros [= <-].
  - rewrite lookup_insert_ne by done. apply Hm.
Qed.

Lemma filed_from_put_always found l refs :
  filed_from found refs → (∀ p, p ∈ l → found p) →
  filed_from found (foldl put_always refs l).
Proof.
  revert refs. induction l as [|q l IH]; intros refs Hm Hl; [done|]. cbn [foldl].
  apply IH; [|intros p Hp; apply Hl; by right].
  apply filed_from_insert; [done|]. apply Hl. by left.
Qed.

Lemma filed_from_put_if_absent found l refs :
  filed_from found refs → (∀ p, p ∈ l → found p) →
  filed_from found (foldl put_if_absent refs l).
Proof.
  revert refs. induction l as [|q l IH]; intros refs Hm Hl; [done|]. cbn [foldl].
  apply IH; [|intros p Hp; apply Hl; by right].
  unfold put_if_absent. case_decide; [done|].
  apply filed_from_insert; [done|]. apply Hl. by left.
Qed.

Definition found_by_glob (dirs : list (string * list string)) (p : string) : Prop :=
  ∃ suf, suf ∈ REF_TOKEN_SUFFIXES ∧ p ∈ glob_suffix dirs suf.

Lemma build_reference_map_filed d names matching :
  filed_from (found_by_glob (searched_dirs d names matching))
             (build_reference_map d (Some names) matching).
Proof.
  rewrite build_reference_map_folds. cbn zeta.
  repeat apply filed_from_put_if_absent; [apply filed_from_put_always| |].
  - intros k p. by rewrite lookup_empty.
  - intros p Hp. exists "_ref.token.txt". split; [|done].
    unfold REF_TOKEN_SUFFIXES. rewrite !elem_of_cons. auto.
  - intros p Hp. exists "_reference.token.txt". split; [|done].
    unfold REF_TOKEN_SUFFIXES. rewrite !elem_of_cons. auto.
  - intros p Hp. exists "_ref.txt". split; [|done].
    unfold REF_TOKEN_SUFFIXES. rewrite !elem_of_cons. auto.
Qed.

(** The loops never remove a key. *)
Lemma foldl_put_always_is_Some l (m : gmap string string) k :
  is_Some (m !! k) → is_Some (foldl put_always m l !! k).
Proof.
  revert m. induction l as [|q l IH]; intros m Hm; [done|]. cbn [foldl].
  apply IH. unfold put_always. rewrite lookup_insert_is_Some. 
  destruct (decide (ref_key q = k)); auto.
Qed.

Lemma foldl_put_always_empty l (m : gmap string string) :
  foldl put_always m l = ∅ ↔ m = ∅ ∧ l = [].
Proof.
  split; [|by intros [-> ->]].
  destruct l as [|q l]; [done|]. cbn [foldl]. intros Hempty.
  assert (is_Some (foldl put_always (put_always m q) l !! ref_key q)) as [p Hp].
  { apply foldl_put_always_is_Some. unfold put_always.
    rewrite lookup_insert_eq. by eexists. }
  by rewrite Hempty, lookup_empty in Hp.
Qed.

Lemma foldl_put_if_absent_empty l (m : gmap string string) :
  foldl put_if_absent m l = ∅ ↔ m = ∅ ∧ l = [].
Proof.
  split; [|by intros [-> ->]].
  destruct l as [|q l]; [done|]. cbn [foldl]. intros Hempty.
  assert (is_Some (put_if_absent m q !! ref_key q)) as [p Hp].
  { unfold put_if_absent. case_decide; [done|].
    rewrite lookup_insert_eq. by eexists. }
  apply (foldl_put_if_absent_keep l) in Hp.
  by rewrite Hempty, lookup_empty in Hp.
Qed.

Lemma glob_suffix_nil dirs suf :
  glob_suffix dirs suf = [] ↔
  ∀ dir name, dir ∈ dirs → name ∈ dir.2 → endswith name suf = true →
              startswith name "." = true.
Proof.
  split.
  - intros Hnil dir name Hdir Hin Hsuf. apply not_false_iff_true. intros Hvis.
    assert (path_join dir.1 name ∈ glob_suffix dirs suf) as Hp
      by (apply elem_of_glob_suffix; by exists dir, name).
    rewrite Hnil in Hp. by apply elem_of_nil in Hp.
  - intros Hall. destruct (glob_suffix dirs suf) as [|p l] eqn:Hl; [done|].
    assert (p ∈ glob_suffix dirs suf) as Hp by (rewrite Hl; by left).
    apply elem_of_glob_suffix in Hp as (dir & name & Hdir & Hin & Hvis & Hsuf & _).
    rewrite (Hall dir name) in Hvis by done. done.
Qed.

(** X7. Every entry of the reference map is backed by a file: the stored
    path is one of the directories that [glob] went through, joined with an
    entry of that directory which does not start with a dot and ends in a
    known suffix, and the key is what [_basename_from_ref_filename] gives for
    the last component of the stored path.  When the name of the samples
    directory has no pattern character, that directory is the samples
    directory itself.  A path that is not a directory gives no entry. *)
Theorem reference_map_entries_sound (samples_dir : string)
    (entries : option (list string)) (matching : list (string * list string))
    (b p : string) :
  build_reference_map samples_dir entries matching !! b = Some p →
  ∃ names dir suf name,
    entries = Some names ∧ dir ∈ searched_dirs samples_dir names matching ∧
    (has_magic samples_dir = false → dir = (glob_dirname samples_dir, names)) ∧
    suf ∈ REF_TOKEN_SUFFIXES ∧ name ∈ dir.2 ∧
    startswith name "." = false ∧ endswith name suf = true ∧
    p = path_join dir.1 name ∧
    b = _basename_from_ref_filename (path_basename p).
Proof.
  destruct entries as [names|]; [|cbn [build_reference_map]; by rewrite lookup_empty].
  intros [Hk (suf & Hsuf & Hp)]%build_reference_map_filed.
  apply elem_of_glob_suffix in Hp as (dir & name & Hdir & Hin & Hvis & Hends & Hp).
  exists names, dir, suf, name. repeat split; try done.
  intros Hplain. rewrite searched_dirs_literal in Hdir by done.
  by apply list_elem_of_singleton in Hdir.
Qed.

Lemma reference_map_entries_sound_witness :
  build_reference_map "samples/" (Some ["a_ref.txt"; "b.txt"]) [] !! "a"
    = Some "samples/a_ref.txt" ∧
  ∃ names dir suf name,
    Some ["a_ref.txt"; "b.txt"] = Some names ∧
    dir ∈ searched_dirs "samples/" names [] ∧
    (has_magic "samples/" = false → dir = (glob_dirname "samples/", names)) ∧
    suf ∈ REF_TOKEN_SUFFIXES ∧ name ∈ dir.2 ∧
    startswith name "." = false ∧ endswith name suf = true ∧
    "samples/a_ref.txt" = path_join dir.1 name ∧
    "a" = _basename_from_ref_filename (path_basename "samples/a_ref.txt").
Proof.
  split; [by vm_compute|].
  apply (reference_map_entries_sound "samples/" (Some ["a_ref.txt"; "b.txt"]) []).
  by vm_compute.
Defined.

Lemma build_reference_map_empty samples_dir entries matching :
  build_reference_map samples_dir entries matching = ∅ ↔
  ∀ names, entries = Some names →
    ∀ dir name suf, dir ∈ searched_dirs samples_dir names matching →
      name ∈ dir.2 → suf ∈ REF_TOKEN_SUFFIXES →
      endswith name suf = true → startswith name "." = true.
Proof.
  destruct entries as [names|]; [|done].
  rewrite build_reference_map_folds. cbn zeta.
  rewrite !foldl_put_if_absent_empty, foldl_put_always_empty, !glob_suffix_nil.
  split.
  - intros [[[_ H1] H2] H3] ? [= <-] dir name suf Hdir Hin Hsuf.
    unfold REF_TOKEN_SUFFIXES in Hsuf.
    apply elem_of_cons in Hsuf as [->|Hsuf]; [by apply (H1 dir)|].
    apply elem_of_cons in Hsuf as [->|Hsuf]; [by apply (H2 dir)|].
    apply list_elem_of_singleton in Hsuf as ->. by apply (H3 dir).
  - intros Hall. specialize (Hall names eq_refl).
    repeat split; intros dir name Hdir Hin; apply (Hall dir); try done;
      unfold REF_TOKEN_SUFFIXES; rewrite !elem_of_cons; auto.
Qed.

(** X8. The reference map is empty exactly when the samples path is not a
    directory or, in each directory that [glob] goes through, every entry
    that ends in a known suffix starts with a dot.  When the name of the
    samples directory has no pattern character, the only such directory is
    the samples directory. *)
Theorem reference_map_empty_iff (samples_dir : string) (entries : option (list string))
    (matching : list (string * list string)) :
  (build_reference_map samples_dir entries matching = ∅ ↔
   ∀ names, entries = Some names →
     ∀ dir name suf, dir ∈ searched_dirs samples_dir names matching →
       name ∈ dir.2 → suf ∈ REF_TOKEN_SUFFIXES →
       endswith name suf = true → startswith name "." = true) ∧
  (has_magic samples_dir = false →
   ∀ names, searched_dirs samples_dir names matching =
            [(glob_dirname samples_dir, names)]).
Proof.
  split; [apply build_reference_map_empty|].
  intros Hplain names. by apply searched_dirs_literal.
Qed.

(** ** The hypothesis collector *)

Lemma lower_txt s : lower (s +:+ ".txt") = lower s +:+ ".txt".
Proof. by rewrite lower_app. Qed.

(** The file name of model [M]: tokenized or raw. *)
Definition hyp_ext (is_tokenized : bool) : string :=
  if is_tokenized then ".token.txt" else ".txt".

Lemma hyp_ext_txt tok : ∃ e, hyp_ext tok = e +:+ ".txt".
Proof. destruct tok; [by exists ".token"|by exists ""]. Qed.

Lemma classify_hypothesis_Some prefix fname M tok :
  classify_hypothesis prefix fname = Some (M, tok) ↔
  fname = prefix +:+ M +:+ hyp_ext tok ∧
  is_ref_file fname = false ∧ is_times_or_eval M = false ∧
  (tok = false → endswith M ".token" = false).
Proof.
  unfold classify_hypothesis. split.
  - destruct (endswith (lower fname) ".txt"); [|done]. cbn [negb].
    destruct (startswith fname prefix) eqn:Hpre; [|done]. cbn [negb].
    apply startswith_true in Hpre as [mp ->].
    destruct (is_ref_file (prefix +:+ mp)); [done|].
    rewrite slice_from_app.
    destruct (endswith mp ".token.txt") eqn:Htok.
    + apply endswith_true in Htok as [y ->].
      rewrite slice_to_neg_app by done.
      destruct (is_times_or_eval y) eqn:Hy; [done|]. by intros [= -> <-].
    + destruct (endswith mp ".txt") eqn:Htxt; [|done].
      apply endswith_true in Htxt as [y ->].
      rewrite slice_to_neg_app by done.
      destruct (is_times_or_eval y) eqn:Hy; [done|]. intros [= -> <-].
      repeat split; [done|]. intros _.
      by rewrite <- (endswith_app_same M ".token" ".txt").
  - intros (-> & Href & HM & Hraw).
    assert (endswith (lower (prefix +:+ M +:+ hyp_ext tok)) ".txt" = true) as ->.
    { destruct (hyp_ext_txt tok) as [e ->].
      by rewrite <- !app_assoc_str, lower_txt, endswith_app. }
    rewrite startswith_app, Href, slice_from_app. cbn [negb].
    destruct tok; cbn [hyp_ext].
    + by rewrite endswith_app, slice_to_neg_app, HM.
    + change ".token.txt" with (".token" +:+ ".txt").
      rewrite endswith_app_same, Hraw by done.
      by rewrite endswith_app, slice_to_neg_app, HM.
Qed.

Section collector.
Context (out_dir prefix : string).

(** The entry [fname] is taken as the file of model [M]. *)
Definition taken_as (tok : bool) (M fname : string) : Prop :=
  classify_hypothesis prefix fname = Some (M, tok).

#[global] Instance taken_as_dec tok M fname : Decision (taken_as tok M fname).
Proof. unfold taken_as. apply _. Defined.

Definition hyp_file (tok : bool) (M : string) : string :=
  prefix +:+ M +:+ hyp_ext tok.

Lemma taken_as_file tok M fname : taken_as tok M fname → fname = hyp_file tok M.
Proof. by intros (-> & _)%classify_hypothesis_Some. Qed.

Lemma Exists_taken_as tok M l :
  Exists (taken_as tok M) l ↔ hyp_file tok M ∈ l ∧ taken_as tok M (hyp_file tok M).
Proof.
  rewrite Exists_exists. split.
  - intros (f & Hin & Hf). by rewrite <- (taken_as_file _ _ _ Hf).
  - intros [Hin Hf]. by exists (hyp_file tok M).
Qed.

Lemma collect_step_other candidates fname M :
  (∀ tok, ¬ taken_as tok M fname) →
  collect_step out_dir prefix candidates fname !! M = candidates !! M.
Proof.
  intros Hno. unfold collect_step.
  destruct (classify_hypothesis prefix fname) as [[M' tok]|] eqn:Hf; [|done].
  assert (M' ≠ M) by (intros ->; by apply (Hno tok)).
  destruct tok; [by rewrite lookup_insert_ne|].
  case_decide; [done|]. by rewrite lookup_insert_ne.
Qed.

(** The entry for [M] after the loop has gone through [l]: the tokenized file
    if [l] offers it, else what was there before, else the raw file. *)
Lemma collect_loop_lookup l candidates M :
  foldl (collect_step out_dir prefix) candidates l !! M =
  if decide (Exists (taken_as true M) l)
  then Some (path_join out_dir (hyp_file true M))
  else match candidates !! M with
       | Some p => Some p
       | None =>
           if decide (Exists (taken_as false M) l)
           then Some (path_join out_dir (hyp_file false M))
           else None
       end.
Proof.
  revert candidates. induction l as [|f l IH]; intros candidates.
  { cbn [foldl]. rewrite !(decide_False (P := Exists _ [])) by (by inversion 1).
    by destruct (candidates !! M). }
  cbn [foldl]. rewrite IH.
  destruct (decide (taken_as true M f)) as [Htok|Hntok].
  { rewrite (decide_True (P := Exists _ (f :: l))) by (by left).
    pose proof (taken_as_file _ _ _ Htok) as Hfile.
    case_decide; [done|]. unfold collect_step. unfold taken_as in Htok.
    rewrite Htok, lookup_insert_eq. by rewrite Hfile. }
  rewrite (decide_ext (Exists (taken_as true M) (f :: l)) (Exists (taken_as true M) l))
    by (rewrite Exists_cons; tauto).
  case_decide as Hl; [done|].
  destruct (decide (taken_as false M f)) as [Hraw|Hnraw].
  { rewrite (decide_True (P := Exists (taken_as false M) (f :: l))) by (by left).
    pose proof (taken_as_file _ _ _ Hraw) as Hfile.
    unfold collect_step. unfold taken_as in Hraw. rewrite Hraw.
    destruct (candidates !! M) as [p|] eqn:Hm.
    - rewrite decide_True by (by eexists). by rewrite Hm.
    - rewrite decide_False by (by intros [? ?]).
      by rewrite lookup_insert_eq, Hfile. }
  rewrite collect_step_other by (by intros []).
  rewrite (decide_ext (Exists (taken_as false M) (f :: l)) (Exists (taken_as false M) l))
    by (rewrite Exists_cons; tauto).
  done.
Qed.

End collector.

Lemma elem_of_sorted f names : f ∈ sorted names ↔ f ∈ names.
Proof. unfold sorted. by rewrite merge_sort_Permutation. Qed.

Lemma decide_as_bool (P : Prop) `{!Decision P} (b : bool) {A} (x y : A) :
  (P ↔ b = true) → (if decide P then x else y) = if b then x else y.
Proof.
  intros HP. case_decide as H; destruct b; try done.
  - by apply HP in H.
  - destruct H. by apply HP.
Qed.

Lemma collect_hypotheses_lookup out_dir names basename M :
  collect_hypotheses_by_model out_dir (Some names) basename !! M =
    let tokf := (basename +:+ "_") +:+ M +:+ ".token.txt" in
    let rawf := (basename +:+ "_") +:+ M +:+ ".txt" in
    if is_times_or_eval M then None
    else if bool_decide (tokf ∈ names) && negb (is_ref_file tokf)
    then Some (path_join out_dir tokf)
    else if bool_decide (rawf ∈ names) && negb (is_ref_file rawf)
            && negb (endswith M ".token")
    then Some (path_join out_dir rawf)
    else None.
Proof.
  cbn zeta. unfold collect_hypotheses_by_model.
  rewrite collect_loop_lookup, lookup_empty.
  set (pre := basename +:+ "_").
  destruct (is_times_or_eval M) eqn:HM.
  { rewrite !decide_False; [done|intros (f & _ & H)%Exists_exists..];
      apply classify_hypothesis_Some in H as (_ & _ & ? & _); congruence. }
  rewrite (decide_as_bool _
    (bool_decide (pre +:+ M +:+ ".token.txt" ∈ names)
     && negb (is_ref_file (pre +:+ M +:+ ".token.txt")))).
  2:{ rewrite Exists_taken_as, elem_of_sorted. unfold taken_as.
      rewrite classify_hypothesis_Some. unfold hyp_file. cbn [hyp_ext].
      rewrite andb_true_iff, bool_decide_eq_true, negb_true_iff.
      split; [by intros (? & _ & ? & _)|by intros [? ?]]. }
  rewrite (decide_as_bool _
    (bool_decide (pre +:+ M +:+ ".txt" ∈ names)
     && negb (is_ref_file (pre +:+ M +:+ ".txt")) && negb (endswith M ".token"))).
  2:{ rewrite Exists_taken_as, elem_of_sorted. unfold taken_as.
      rewrite classify_hypothesis_Some. unfold hyp_file. cbn [hyp_ext].
      rewrite !andb_true_iff, bool_decide_eq_true, !negb_true_iff.
      split; [intros (? & _ & ? & _ & Hraw); by rewrite Hraw|by intros [[? ?] ?]]. }
  done.
Qed.

(** X9. What the chain of tests in the loop body accepts.  An entry is taken
    as the file of model [M] exactly when it is [prefix + M + ".token.txt"]
    (tokenized) or [prefix + M + ".txt"] (raw), it does not end in a
    reference suffix, [M] is not a timing or evaluation artifact, and, for a
    raw file, [M] does not end in [".token"]. *)
Theorem hypothesis_file_classified (prefix fname M : string) (is_tokenized : bool) :
  classify_hypothesis prefix fname = Some (M, is_tokenized) ↔
  fname = prefix +:+ M +:+ (if is_tokenized then ".token.txt" else ".txt") ∧
  is_ref_file fname = false ∧ is_times_or_eval M = false ∧
  (is_tokenized = false → endswith M ".token" = false).
Proof. apply classify_hypothesis_Some. Qed.

(** X10. The collector prefers the tokenized file.  The path stored for
    model [M] is the tokenized file [basename_M.token.txt] whenever the
    directory has it and it is not a reference file; otherwise the raw file
    [basename_M.txt] under the same conditions, provided [M] does not end in
    [".token"]; otherwise [M] has no entry.  Artifact names have no entry. *)
Theorem collector_prefers_tokenized (out_dir : string) (names : list string)
    (basename M : string) :
  collect_hypotheses_by_model out_dir (Some names) basename !! M =
    let tokf := (basename +:+ "_") +:+ M +:+ ".token.txt" in
    let rawf := (basename +:+ "_") +:+ M +:+ ".txt" in
    if is_times_or_eval M then None
    else if bool_decide (tokf ∈ names) && negb (is_ref_file tokf)
    then Some (path_join out_dir tokf)
    else if bool_decide (rawf ∈ names) && negb (is_ref_file rawf)
            && negb (endswith M ".token")
    then Some (path_join out_dir rawf)
    else None.
Proof. apply collect_hypotheses_lookup. Qed.

(** X11. The result of the collector depends on which names the directory
    has, not on the order in which they are listed nor on repetitions. *)
Theorem collector_listing_order_irrelevant (out_dir : string)
    (names names' : list string) (basename : string) :
  (∀ fname, fname ∈ names ↔ fname ∈ names') →
  collect_hypotheses_by_model out_dir (Some names) basename =
  collect_hypotheses_by_model out_dir (Some names') basename.
Proof.
  intros Hsame. apply map_eq. intros M. rewrite !collect_hypotheses_lookup.
  cbn zeta. by rewrite !(bool_decide_ext _ _ (Hsame _)).
Qed.

Lemma collector_listing_order_irrelevant_witness :
  (∀ fname, fname ∈ ["a_m.txt"; "a_m.token.txt"; "a_n.txt"] ↔
            fname ∈ ["a_n.txt"; "a_m.token.txt"; "a_m.txt"; "a_n.txt"]) ∧
  collect_hypotheses_by_model "out" (Some ["a_m.txt"; "a_m.token.txt"; "a_n.txt"]) "a" =
  collect_hypotheses_by_model "out"
    (Some ["a_n.txt"; "a_m.token.txt"; "a_m.txt"; "a_n.txt"]) "a".
Proof.
  assert (∀ fname, fname ∈ ["a_m.txt"; "a_m.token.txt"; "a_n.txt"] ↔
                   fname ∈ ["a_n.txt"; "a_m.token.txt"; "a_m.txt"; "a_n.txt"]) as H.
  { intros fname. rewrite !elem_of_cons, !elem_of_nil. tauto. }
  split; [exact H|]. apply collector_listing_order_irrelevant. exact H.
Defined.

(** ** The test for timing and evaluation artifacts *)

Lemma has_infix_true p l : has_infix p l = true ↔ ∃ a b, l = a ++ p ++ b.
Proof.
  induction l as [|c l IH]; cbn [has_infix].
  - rewrite orb_false_r, bool_decide_eq_true. split.
    + intros [k Hk]. by exists [], k.
    + intros (a & b & Hab). symmetry in Hab.
      apply app_eq_nil in Hab as [-> Hpb]. by exists b.
  - rewrite orb_true_iff, bool_decide_eq_true, IH. split.
    + intros [[k ->]|(a & b & ->)]; [by exists [], k|by exists (c :: a), b].
    + intros (a & b & Hab). destruct a as [|c' a].
      * left. by exists b.
      * right. injection Hab as -> ->. by exists a, b.
Qed.

Lemma contains_true s p : contains s p = true ↔ ∃ a b, s = a +:+ p +:+ b.
Proof.
  unfold contains. rewrite has_infix_true. split.
  - intros (a & b & Hab). exists (str a), (str b). apply chars_inj.
    by rewrite !chars_app, !chars_str.
  - intros (a & b & ->). exists (chars a), (chars b). by rewrite !chars_app.
Qed.

Lemma endswith_contains s p : endswith s p = true → contains s p = true.
Proof.
  intros [a ->]%endswith_true. apply contains_true. exists a, "".
  by rewrite app_empty_r.
Qed.

Lemma startswith_contains s p : startswith s p = true → contains s p = true.
Proof. intros [b ->]%startswith_true. apply contains_true. by exists "", b. Qed.

(** X12. Two of the six tests for timing and evaluation artifacts are
    implied by the others: a model name is excluded exactly when its
    lower-cased form starts with ["times"], contains ["_times"] or
    ["_eval"], or is ["time"]. *)
Theorem times_eval_test_reduced (raw_model_name : string) :
  is_times_or_eval raw_model_name =
    let rm_lower := lower raw_model_name in
    startswith rm_lower "times" || contains rm_lower "_times" ||
    contains rm_lower "_eval" || bool_decide (rm_lower = "time").
Proof.
  unfold is_times_or_eval. cbn zeta. set (l := lower raw_model_name).
  destruct (bool_decide (l = "times")) eqn:H1.
  { apply bool_decide_eq_true in H1 as ->. done. }
  destruct (endswith l "_times") eqn:H2.
  { rewrite (endswith_contains _ _ H2). by rewrite !orb_true_r. }
  done.
Qed.

(** ** The names of the report files *)

Lemma before_last_short p l : length l < length p → before_last p l = None.
Proof.
  induction l as [|c l IH]; intros Hlen; cbn [before_last].
  - rewrite bool_decide_false; [done|]. intros Hp%prefix_length. lia.
  - rewrite IH by (cbn [length] in Hlen; lia).
    rewrite bool_decide_false; [done|]. intros Hp%prefix_length. lia.
Qed.

Lemma before_last_app x p : p ≠ [] → before_last p (x ++ p) = Some x.
Proof.
  intros Hp. induction x as [|c x IH].
  - destruct p as [|c p]; [done|]. cbn [app before_last].
    rewrite before_last_short by (cbn [length]; lia).
    by rewrite bool_decide_true.
  - cbn [app before_last]. by rewrite IH.
Qed.

Lemma rsplit1_head_app x sep : sep ≠ "" → rsplit1_head (x +:+ sep) sep = x.
Proof.
  intros Hsep. unfold rsplit1_head. rewrite chars_app, before_last_app.
  - apply str_chars.
  - intros Hnil. apply Hsep, chars_inj. by rewrite Hnil.
Qed.

Lemma eval_and_alignment_paths_join d out_dir stem :
  entry_name (stem +:+ ".txt") →
  eval_and_alignment_paths (path_join d (stem +:+ ".txt")) out_dir =
  (path_join out_dir (stem +:+ "_eval.txt"),
   path_join out_dir (stem +:+ "_alignment.csv")).
Proof.
  intros Hn. unfold eval_and_alignment_paths.
  by rewrite path_basename_join, rsplit1_head_app.
Qed.

(** X13. The collector and the writer together.  When the entries of the
    output directory are plain names, the hypothesis path selected for model
    [M] of a sample is the output directory joined with an entry
    [stem + ".txt"], where [stem] is [basename_M.token] or [basename_M], and
    the two files written for it are [stem + "_eval.txt"] and
    [stem + "_alignment.csv"] in the output directory. *)
Theorem report_paths_of_selected (out_dir : string) (names : list string)
    (basename M hyp_path : string) :
  Forall entry_name names →
  collect_hypotheses_by_model out_dir (Some names) basename !! M = Some hyp_path →
  ∃ stem,
    (stem = (basename +:+ "_") +:+ M +:+ ".token" ∨ stem = (basename +:+ "_") +:+ M) ∧
    stem +:+ ".txt" ∈ names ∧
    hyp_path = path_join out_dir (stem +:+ ".txt") ∧
    eval_and_alignment_paths hyp_path out_dir =
      (path_join out_dir (stem +:+ "_eval.txt"),
       path_join out_dir (stem +:+ "_alignment.csv")).
Proof.
  intros Hnames. rewrite collect_hypotheses_lookup. cbn zeta.
  destruct (is_times_or_eval M); [done|].
  destruct (bool_decide _ && negb _) eqn:Htok.
  - apply andb_true_iff in Htok as [Hin%bool_decide_eq_true _]. intros [= <-].
    exists ((basename +:+ "_") +:+ M +:+ ".token").
    assert (((basename +:+ "_") +:+ M +:+ ".token") +:+ ".txt"
            = (basename +:+ "_") +:+ M +:+ ".token.txt") as Heq
      by (by rewrite !app_assoc_str).
    rewrite Heq. repeat split; [by left|done|]. rewrite <- Heq.
    apply eval_and_alignment_paths_join. rewrite Heq.
    by eapply Forall_forall in Hnames.
  - destruct (bool_decide _ && negb _ && negb _) eqn:Hraw; [|done].
    apply andb_true_iff in Hraw as [Hraw _].
    apply andb_true_iff in Hraw as [Hin%bool_decide_eq_true _]. intros [= <-].
    exists ((basename +:+ "_") +:+ M).
    assert (((basename +:+ "_") +:+ M) +:+ ".txt"
            = (basename +:+ "_") +:+ M +:+ ".txt") as Heq
      by (by rewrite !app_assoc_str).
    rewrite Heq. repeat split; [by right|done|]. rewrite <- Heq.
    apply eval_and_alignment_paths_join. rewrite Heq.
    by eapply Forall_forall in Hnames.
Qed.

Lemma report_paths_of_selected_witness :
  Forall entry_name ["a_m.txt"; "a_m.token.txt"] ∧
  collect_hypotheses_by_model "out" (Some ["a_m.txt"; "a_m.token.txt"]) "a" !! "m"
    = Some "out/a_m.token.txt" ∧
  ∃ stem,
    (stem = ("a" +:+ "_") +:+ "m" +:+ ".token" ∨ stem = ("a" +:+ "_") +:+ "m") ∧
    stem +:+ ".txt" ∈ ["a_m.txt"; "a_m.token.txt"] ∧
    "out/a_m.token.txt" = path_join "out" (stem +:+ ".txt") ∧
    eval_and_alignment_paths "out/a_m.token.txt" "out" =
      (path_join "out" (stem +:+ "_eval.txt"),
       path_join "out" (stem +:+ "_alignment.csv")).
Proof.
  split; [by apply (bool_decide_unpack _); vm_compute|].
  split; [by vm_compute|].
  apply (report_paths_of_selected "out" ["a_m.txt"; "a_m.token.txt"] "a" "m").
  - by apply (bool_decide_unpack _); vm_compute.
  - by vm_compute.
Defined.

Lemma lower_eval : lower "_eval" = "_eval".
Proof. reflexivity. Qed.

(** A name before ["_eval"], read as a sample identifier, an underscore and
    a model name: the model is ["eval"] or ends in ["_eval"]. *)
Lemma split_before_eval stem b M :
  stem +:+ "_eval" = (b +:+ "_") +:+ M →
  (M = "eval" ∧ b = stem) ∨ ∃ M', M = M' +:+ "_eval".
Proof.
  intros Heq.
  assert (chars "_eval" `suffix_of` chars stem ++ chars "_eval") as H1
    by (by exists (chars stem)).
  assert (chars ("_" +:+ M) `suffix_of` chars stem ++ chars "_eval") as H2.
  { exists (chars b). by rewrite <- !chars_app, Heq, !app_assoc_str. }
  destruct (suffix_weak_total _ _ _ H1 H2) as [[k Hk]|[k Hk]].
  - destruct k as [|c k].
    + left. cbn in Hk. injection Hk as Hk.
      assert (M = "eval") as -> by (by apply chars_inj).
      split; [done|]. rewrite app_assoc_str in Heq. symmetry.
      by apply (app_inv_tail_str _ _ "_eval").
    + right. exists (str k). apply chars_inj. rewrite chars_app, chars_str.
      cbn in Hk. injection Hk as _ Hk. exact Hk.
  - left. change (chars ("_" +:+ M)) with ("_"%char :: chars M) in Hk. cbn in Hk.
    destruct k as [|c k]; simplify_eq/=.
    + assert (M = "eval") as -> by (by apply chars_inj).
      split; [done|]. rewrite app_assoc_str in Heq. symmetry.
      by apply (app_inv_tail_str _ _ "_eval").
    + do 5 (destruct k as [|? k]; simplify_eq/=).
Qed.

Lemma not_tokenized_eval x y : x +:+ "_eval.txt" ≠ y +:+ ".token.txt".
Proof.
  intros Heq. apply (f_equal (λ s, rev (chars s))) in Heq.
  rewrite !chars_app, !rev_app_distr in Heq. simplify_eq/=.
Qed.

Lemma is_ref_file_eval stem : is_ref_file (stem +:+ "_eval.txt") = false.
Proof.
  unfold is_ref_file.
  by rewrite !(endswith_other_suffix stem _ "_eval.txt") by (by vm_compute).
Qed.

Lemma alignment_csv_skipped prefix stem :
  classify_hypothesis prefix (stem +:+ "_alignment.csv") = None.
Proof.
  unfold classify_hypothesis. rewrite lower_app.
  by rewrite (endswith_other_suffix _ ".txt" "_alignment.csv") by (by vm_compute).
Qed.

(** X14. The files written for one pair and the collector.  The alignment
    table [stem + "_alignment.csv"] is never taken as a hypothesis.  The
    report [stem + "_eval.txt"] is taken as a hypothesis of a sample in one
    case only: for the sample whose identifier is [stem] itself, as the raw
    file of a model called ["eval"]. *)
Theorem eval_report_as_hypothesis (stem basename M : string) (is_tokenized : bool) :
  classify_hypothesis (basename +:+ "_") (stem +:+ "_alignment.csv") = None ∧
  (classify_hypothesis (basename +:+ "_") (stem +:+ "_eval.txt") = Some (M, is_tokenized) ↔
   basename = stem ∧ M = "eval" ∧ is_tokenized = false).
Proof.
  split; [apply alignment_csv_skipped|].
  rewrite classify_hypothesis_Some. split.
  - intros (Hname & _ & HM & _). destruct is_tokenized; cbn [hyp_ext] in Hname.
    { rewrite <- app_assoc_str in Hname. by apply not_tokenized_eval in Hname. }
    change "_eval.txt" with ("_eval" +:+ ".txt") in Hname.
    rewrite <- !app_assoc_str in Hname. apply app_inv_tail_str in Hname.
    apply split_before_eval in Hname as [[-> ->]|[M' ->]]; [done|].
    assert (contains (lower (M' +:+ "_eval")) "_eval" = true) as Hc.
    { rewrite lower_app, lower_eval. apply endswith_contains, endswith_app. }
    unfold is_times_or_eval in HM. rewrite Hc in HM.
    by rewrite !orb_true_r in HM.
  - intros (-> & -> & ->). cbn [hyp_ext].
    rewrite is_ref_file_eval. repeat split. by rewrite !app_assoc_str.
Qed.

(** ** Reading tokens *)

(** A token: not empty, no white space. *)
Definition is_token (tok : text) : Prop :=
  tok ≠ [] ∧ Forall (λ c, isspace c = false) tok.

Lemma split_from_tokens cur txt :
  Forall (λ c, isspace c = false) cur → Forall is_token (split_from cur txt).
Proof.
  revert cur. induction txt as [|c txt IH]; intros cur Hcur; cbn [split_from].
  - destruct cur as [|d cur]; [done|]. apply Forall_singleton. split.
    + intros Hnil%(f_equal length). rewrite length_rev in Hnil. done.
    + by apply Forall_rev.
  - destruct (isspace c) eqn:Hc.
    + destruct cur as [|d cur]; [by apply IH|]. apply Forall_cons. split.
      * split; [|by apply Forall_rev].
        intros Hnil%(f_equal length). rewrite length_rev in Hnil. done.
      * by apply IH.
    + apply IH. by apply Forall_cons.
Qed.

Lemma split_from_concat cur txt :
  concat (split_from cur txt) = rev cur ++ filter (λ c, isspace c = false) txt.
Proof.
  revert cur. induction txt as [|c txt IH]; intros cur; cbn [split_from].
  - destruct cur as [|d cur]; [done|]. reflexivity.
  - destruct (isspace c) eqn:Hc.
    + rewrite (filter_cons_False (λ c, isspace c = false) c txt) by (by rewrite Hc).
      destruct cur as [|d cur]; [apply IH|]. cbn [concat]. by rewrite IH.
    + rewrite (filter_cons_True (λ c, isspace c = false) c txt) by done. rewrite IH. cbn [rev].
      by rewrite <- app_assoc.
Qed.

(** White space at either end does not change the tokens. *)
Lemma split_from_run cur tok txt :
  Forall (λ c, isspace c = false) tok →
  split_from cur (tok ++ txt) = split_from (rev tok ++ cur) txt.
Proof.
  revert cur. induction tok as [|c tok IH]; intros cur Htok; [done|].
  apply Forall_cons in Htok as [Hc Htok]. cbn [app split_from]. rewrite Hc.
  rewrite IH by done. cbn [rev]. by rewrite <- app_assoc.
Qed.

Lemma split_from_trailing cur txt sp :
  Forall (λ c, isspace c = true) sp → split_from cur (txt ++ sp) = split_from cur txt.
Proof.
  intros Hsp. revert cur. induction txt as [|c txt IH]; intros cur.
  - rewrite app_nil_l. revert cur. induction Hsp as [|c sp Hc Hsp IH]; intros cur; [done|].
    cbn [split_from]. rewrite Hc. destruct cur as [|d cur]; [apply IH|].
    by rewrite IH.
  - cbn [app split_from]. destruct (isspace c); [|apply IH].
    destruct cur; by rewrite IH.
Qed.

Lemma split_lstrip txt : split (lstrip txt) = split txt.
Proof.
  unfold split. induction txt as [|c txt IH]; [done|]. cbn [lstrip].
  destruct (isspace c) eqn:Hc; [|done]. cbn [split_from]. by rewrite Hc.
Qed.

Lemma lstrip_split txt :
  ∃ sp, Forall (λ c, isspace c = true) sp ∧ txt = sp ++ lstrip txt.
Proof.
  induction txt as [|c txt (sp & Hsp & IH)]; [by exists []|]. cbn [lstrip].
  destruct (isspace c) eqn:Hc; [|by exists []].
  exists (c :: sp). split; [by apply Forall_cons|]. cbn [app]. by rewrite <- IH.
Qed.

Lemma split_strip txt : split (strip txt) = split txt.
Proof.
  unfold strip. destruct (lstrip_split (rev (lstrip txt))) as (sp & Hsp & Heq).
  rewrite <- (split_lstrip txt). apply (f_equal (@rev _)) in Heq.
  rewrite rev_involutive, rev_app_distr in Heq. rewrite Heq at 2.
  unfold split. rewrite split_from_trailing; [done|]. by apply Forall_rev.
Qed.

Lemma read_tokens_split content : read_tokens content = split content.
Proof.
  unfold read_tokens. cbn zeta. rewrite <- (split_strip content).
  case_bool_decide as Hs; [done|]. by rewrite Hs.
Qed.

Lemma split_from_token tok txt :
  is_token tok →
  split_from [] (tok ++ txt) =
  match txt with
  | [] => [tok]
  | c :: txt' => if isspace c then tok :: split_from [] txt'
                 else split_from (c :: rev tok) txt'
  end.
Proof.
  intros [Hne Htok]. rewrite split_from_run, app_nil_r by done.
  destruct (rev tok) as [|d cur] eqn:Hrev.
  { apply (f_equal length) in Hrev. rewrite length_rev in Hrev. by destruct tok. }
  rewrite <- (rev_involutive tok), Hrev. by destruct txt.
Qed.

Lemma split_join_space tokens :
  Forall is_token tokens → split (join_space tokens) = tokens.
Proof.
  unfold split. induction 1 as [|tok rest Htok Hrest IH]; [done|].
  cbn [join_space]. destruct rest as [|tok' rest].
  - rewrite <- (app_nil_r tok) at 1. by rewrite split_from_token.
  - rewrite split_from_token by done. change (isspace 32) with true.
    cbv iota. by rewrite IH.
Qed.

(** X15. What [read_tokens] returns.  Stripping the text and testing it for
    emptiness change nothing: the result is the split of the text as read.
    No token is empty, no token contains white space, and the tokens put
    end to end are the text without its white space. *)
Theorem read_tokens_well_formed (content : text) :
  read_tokens content = split content ∧
  Forall (λ tok, tok ≠ [] ∧ Forall (λ c, isspace c = false) tok) (read_tokens content) ∧
  concat (read_tokens content) = filter (λ c, isspace c = false) content.
Proof.
  rewrite read_tokens_split. split; [done|]. split.
  - by apply split_from_tokens.
  - apply split_from_concat.
Qed.

(** X16. Tokens survive being written on one line: a list of non-empty
    tokens without white space, joined by single spaces, is read back as the
    same list. *)
Theorem read_tokens_join_roundtrip (tokens : list text) :
  Forall (λ tok, tok ≠ [] ∧ Forall (λ c, isspace c = false) tok) tokens →
  read_tokens (join_space tokens) = tokens.
Proof. intros Htok. rewrite read_tokens_split. by apply split_join_space. Qed.

Lemma read_tokens_join_roundtrip_witness :
  Forall (λ tok, tok ≠ [] ∧ Forall (λ c, isspace c = false) tok) [[97; 98]; [12354]]%N ∧
  read_tokens (join_space [[97; 98]; [12354]]%N) = [[97; 98]; [12354]]%N.
Proof.
  assert (Forall (λ tok, tok ≠ [] ∧ Forall (λ c, isspace c = false) tok)
                 [[97; 98]; [12354]]%N) as H
    by (repeat (constructor || split || done)).
  split; [exact H|]. apply read_tokens_join_roundtrip. exact H.
Defined.

(** X17. The token lines of the report: the tokens of a file, joined by
    single spaces as [write_eval_and_alignment] writes them, are read back
    as the tokens of that file. *)
Theorem report_tokens_reread (content : text) :
  read_tokens (join_space (read_tokens content)) = read_tokens content.
Proof.
  rewrite !read_tokens_split. apply split_join_space. by apply split_from_tokens.
Qed.

(** ** The driver *)

(** *** The order on keys *)

#[global] Instance tuple_le_total : Total tuple_le.
Proof.
  intros [a1 a2] [b1 b2]. unfold tuple_le. cbn [fst snd].
  destruct (decide (a1 = b1)) as [->|Hne].
  - rewrite decide_True by done. apply (total String.le).
  - rewrite (decide_False (P := b1 = a1)) by done. apply (total String.le).
Qed.

#[global] Instance tuple_le_antisymm : AntiSymm eq tuple_le.
Proof.
  intros [a1 a2] [b1 b2]. unfold tuple_le. cbn [fst snd].
  destruct (decide (a1 = b1)) as [->|Hne].
  - rewrite decide_True by done. intros H1 H2. f_equal. by apply (anti_symm String.le).
  - rewrite (decide_False (P := b1 = a1)) by done. intros H1 H2.
    destruct Hne. by apply (anti_symm String.le).
Qed.

#[global] Instance tuple_le_trans : Transitive tuple_le.
Proof.
  intros [a1 a2] [b1 b2] [c1 c2]. unfold tuple_le. cbn [fst snd]. intros H1 H2.
  repeat case_decide; simplify_eq; try done; try (by etrans).
  exfalso. match goal with H : _ ≠ _ |- _ => apply H end.
  by apply (anti_symm String.le).
Qed.

(** Strictly before, for strings and for keys. *)
Definition str_lt : relation string := strict String.le.
Definition key_lt : relation (string * string) := strict tuple_le.

Lemma str_lt_ne a b : str_lt a b → a ≠ b.
Proof. intros [H1 H2] ->. by apply H2. Qed.

Lemma key_lt_intro_l a1 a2 b1 b2 : str_lt a1 b1 → key_lt (a1, a2) (b1, b2).
Proof.
  intros Hlt. pose proof (str_lt_ne _ _ Hlt) as Hne. destruct Hlt as [Hle Hnle].
  split; unfold tuple_le; cbn [fst snd].
  - by rewrite decide_False.
  - by rewrite (decide_False (P := b1 = a1)).
Qed.

Lemma key_lt_intro_r a m1 m2 : str_lt m1 m2 → key_lt (a, m1) (a, m2).
Proof.
  intros [Hle Hnle]. split; unfold tuple_le; cbn [fst snd]; by rewrite decide_True.
Qed.

#[global] Instance key_lt_trans : Transitive key_lt.
Proof. unfold key_lt. apply _. Qed.

#[global] Instance str_lt_trans : Transitive str_lt.
Proof. unfold str_lt. apply _. Qed.

(** A sorted list without repetitions is strictly sorted. *)
Lemma StronglySorted_strict {A} (R : relation A) `{!AntiSymm eq R} (l : list A) :
  StronglySorted R l → NoDup l → StronglySorted (strict R) l.
Proof.
  induction 1 as [|x l Hl IH Hx]; intros Hnd; [constructor|].
  apply NoDup_cons in Hnd as [Hnin Hnd]. constructor; [by apply IH|].
  apply Forall_forall. intros y Hy. rewrite Forall_forall in Hx.
  split; [by apply Hx|]. intros Hyx.
  assert (x = y) as -> by (apply (anti_symm R); [by apply Hx|done]). done.
Qed.

Lemma StronglySorted_weaken {A} (R : relation A) (l : list A) :
  StronglySorted (strict R) l → StronglySorted R l.
Proof.
  induction 1 as [|x l Hl IH Hx]; constructor; [done|].
  eapply Forall_impl; [exact Hx|]. by intros y [? _].
Qed.

Lemma StronglySorted_strict_NoDup {A} (R : relation A) (l : list A) :
  StronglySorted (strict R) l → NoDup l.
Proof.
  induction 1 as [|x l Hl IH Hx]; constructor; [|done].
  intros Hin. rewrite Forall_forall in Hx. destruct (Hx x Hin) as [H1 H2]. done.
Qed.

Lemma sorted_keys_strict (d : gmap string string) :
  StronglySorted str_lt (sorted_keys d) ∧ ∀ b, b ∈ sorted_keys d ↔ is_Some (d !! b).
Proof.
  unfold sorted_keys, sorted. split.
  - apply StronglySorted_strict; [apply _| |].
    + apply StronglySorted_merge_sort; apply _.
    + rewrite merge_sort_Permutation. apply NoDup_fst_map_to_list.
  - intros b. rewrite merge_sort_Permutation, list_elem_of_fmap. split.
    + intros ([b' p] & -> & Hin%elem_of_map_to_list). by eexists.
    + intros [p Hp]. exists (b, p). split; [done|]. by apply elem_of_map_to_list.
Qed.

Lemma fst_strict_of_sorted (l : list (string * string)) :
  StronglySorted tuple_le l → NoDup (l.*1) → StronglySorted str_lt (l.*1).
Proof.
  induction 1 as [|[m p] l Hl IH Hx]; intros Hnd; [constructor|].
  rewrite fmap_cons in Hnd. apply NoDup_cons in Hnd as [Hnin Hnd].
  rewrite fmap_cons. constructor; [by apply IH|].
  apply Forall_forall. intros m' ([m'' p'] & -> & Hin)%list_elem_of_fmap.
  rewrite Forall_forall in Hx. specialize (Hx _ Hin).
  unfold tuple_le in Hx. cbn [fst snd] in *.
  assert (m ≠ m'') as Hne.
  { intros ->. apply Hnin. apply list_elem_of_fmap. by exists (m'', p'). }
  rewrite decide_False in Hx by done. split; [done|]. intros Hge.
  apply Hne. by apply (anti_symm String.le).
Qed.

Lemma sorted_items_strict (d : gmap string string) :
  StronglySorted str_lt ((sorted_items d).*1) ∧
  ∀ m p, (m, p) ∈ sorted_items d ↔ d !! m = Some p.
Proof.
  unfold sorted_items. split.
  - apply fst_strict_of_sorted.
    + apply StronglySorted_merge_sort; apply _.
    + rewrite merge_sort_Permutation. apply NoDup_fst_map_to_list.
  - intros m p. rewrite merge_sort_Permutation. apply elem_of_map_to_list.
Qed.

(** *** The summary dictionary *)

Lemma dict_set_absent (d : summary) key row :
  key ∉ d.*1 → dict_set d key row = d ++ [(key, row)].
Proof.
  induction d as [|[k r] d IH]; intros Hnin; [done|]. cbn [dict_set].
  rewrite fmap_cons, not_elem_of_cons in Hnin. destruct Hnin as [Hne Hnin].
  rewrite decide_False by done. by rewrite IH.
Qed.

Lemma omap_dict_get_keys (d : summary) : NoDup (d.*1) → omap (dict_get d) (d.*1) = d.*2.
Proof.
  induction d as [|[k r] d IH]; intros Hnd; [done|].
  rewrite !fmap_cons in *. apply NoDup_cons in Hnd as [Hnin Hnd].
  cbn [omap list_omap dict_get fst snd]. rewrite decide_True by done. f_equal.
  rewrite <- IH by done. clear IH Hnd.
  induction (d.*1) as [|k' ks IHks]; [done|].
  apply not_elem_of_cons in Hnin as [Hne Hnin].
  cbn [omap list_omap dict_get]. rewrite decide_False by done.
  by rewrite IHks.
Qed.

Lemma summary_rows_strict (d : summary) :
  StronglySorted key_lt (d.*1) → summary_rows d = d.*2.
Proof.
  intros Hs. unfold summary_rows.
  assert (merge_sort tuple_le (d.*1) = d.*1) as ->.
  { apply (StronglySorted_unique tuple_le).
    - apply StronglySorted_merge_sort; apply _.
    - by apply StronglySorted_weaken.
    - apply merge_sort_Permutation. }
  apply omap_dict_get_keys. by eapply StronglySorted_strict_NoDup.
Qed.

(** *** Running in the [outcome] monad *)

Lemma bind_Ret_inv {A B} (m : outcome A) (f : A → outcome B) b :
  m ≫= f = Ret b → ∃ a, m = Ret a ∧ f a = Ret b.
Proof. destruct m as [a| |]; [|done..]. intros H. by exists a. Qed.

Lemma for_each_nil {I St} (body : I → St → outcome St) s :
  for_each [] body s = Ret s.
Proof. done. Qed.

Lemma for_each_cons_Ret {I St} x xs (body : I → St → outcome St) s s' :
  for_each (x :: xs) body s = Ret s' →
  ∃ s1, body x s = Ret s1 ∧ for_each xs body s1 = Ret s'.
Proof. cbn [for_each]. apply bind_Ret_inv. Qed.

(** *** The loops of [main] *)

(** What holds of every row of the summary. *)
Definition row_ok (out_dir : string) (ref_map : gmap string string)
    (kr : (string * string) * summary_row) : Prop :=
  row_basename kr.2 = kr.1.1 ∧ row_model kr.2 = kr.1.2 ∧
  ref_map !! kr.1.1 = Some (row_reference kr.2) ∧
  row_total_errors kr.2 =
    row_substitutions kr.2 + row_insertions kr.2 + row_deletions kr.2 ∧
  row_wer kr.2 = wer_of (row_substitutions kr.2) (row_insertions kr.2)
                        (row_deletions kr.2) (row_truth_length kr.2) ∧
  (row_eval_file kr.2, row_alignment_csv kr.2) =
    eval_and_alignment_paths (row_hypothesis kr.2) out_dir.

Section driver_loops.
Context {World : Type}.
Context (isdir : World → string → bool) (scandir : World → string → list string).
Context (listdir : World → string → outcome (list string)).
Context (read_file : World → string → outcome text).
Context (open_write : World → string → outcome World).
Context (write_close : World → string → file_content → outcome World).
Context (token_repr : text → string).
Context (out_dir : string) (ref_map : gmap string string).

Let evaluate_pair' :=
  evaluate_pair read_file open_write write_close token_repr out_dir.
Let evaluate_sample' :=
  evaluate_sample isdir listdir read_file open_write write_close token_repr out_dir ref_map.

Lemma write_eval_and_alignment_paths w ref_path hyp_path ms w' paths :
  write_eval_and_alignment read_file open_write write_close token_repr
    w ref_path hyp_path ms out_dir = Ret (w', paths) →
  paths = eval_and_alignment_paths hyp_path out_dir.
Proof.
  unfold write_eval_and_alignment.
  destruct (eval_and_alignment_paths hyp_path out_dir) as [eval_path align_path].
  intros (w1 & _ & H)%bind_Ret_inv.
  apply bind_Ret_inv in H as (rt & _ & H).
  apply bind_Ret_inv in H as (ht & _ & H).
  apply bind_Ret_inv in H as (w2 & _ & H).
  apply bind_Ret_inv in H as (w3 & _ & H).
  apply bind_Ret_inv in H as (w4 & _ & H).
  by injection H as _ <-.
Qed.

Lemma evaluate_pair_Ret basename ref_path model_name hyp_path w sm st' :
  ref_map !! basename = Some ref_path →
  evaluate_pair' basename ref_path (model_name, hyp_path) (w, sm) = Ret st' →
  ∃ row, st'.2 = dict_set sm (basename, model_name) row ∧
         row_ok out_dir ref_map ((basename, model_name), row).
Proof.
  intros Href. unfold evaluate_pair', evaluate_pair.
  intros (rt & _ & H)%bind_Ret_inv.
  apply bind_Ret_inv in H as (ht & _ & H).
  destruct (compute_measures_facts rt ht) as (ms & Hms & Hlen & Hwer & _).
  rewrite Hms in H. apply bind_Ret_inv in H as (ms' & [= <-] & H).
  apply bind_Ret_inv in H as ([w' [eval_path align_path]] & Hw & H).
  apply write_eval_and_alignment_paths in Hw.
  injection H as <-. eexists. split; [done|].
  unfold row_ok. cbn [fst snd row_basename row_model row_reference row_total_errors
    row_substitutions row_insertions row_deletions row_wer row_truth_length
    row_eval_file row_alignment_csv row_hypothesis].
  repeat split; try done. by rewrite Hlen.
Qed.

Lemma inner_loop basename ref_path items st st' :
  ref_map !! basename = Some ref_path →
  StronglySorted str_lt (items.*1) →
  for_each items (evaluate_pair' basename ref_path) st = Ret st' →
  StronglySorted key_lt (st.2.*1) →
  (∀ k m, k ∈ st.2.*1 → m ∈ items.*1 → key_lt k (basename, m)) →
  Forall (row_ok out_dir ref_map) st.2 →
  StronglySorted key_lt (st'.2.*1) ∧ Forall (row_ok out_dir ref_map) st'.2 ∧
  ∀ k, k ∈ st'.2.*1 → k ∈ st.2.*1 ∨ k.1 = basename.
Proof.
  intros Href. revert st. induction items as [|[m hp] items IH];
    intros [w sm] Hitems Hrun Hs Hbelow Hrows.
  { injection Hrun as <-. auto. }
  apply for_each_cons_Ret in Hrun as (st1 & Hstep & Hrun).
  apply evaluate_pair_Ret in Hstep as (row & Hsm1 & Hrow); [|done].
  rewrite fmap_cons in Hitems. apply StronglySorted_inv in Hitems as [Hitems Hm].
  cbn [fst snd] in *.
  assert ((basename, m) ∉ sm.*1) as Hnew.
  { intros Hin. by destruct (Hbelow (basename, m) m Hin) as [Hle Hirr]; [by left|]. }
  rewrite dict_set_absent in Hsm1 by done.
  destruct (IH st1) as (Hs' & Hrows' & Hkeys'); [done..| | | |].
  - rewrite Hsm1, fmap_app. apply StronglySorted_app_2; [|done|].
    + intros k1 k2 Hk1 ->%list_elem_of_singleton. apply Hbelow; [done|by left].
    + by repeat constructor.
  - intros k m' Hk Hm'. rewrite Hsm1, fmap_app, elem_of_app in Hk.
    destruct Hk as [Hk| ->%list_elem_of_singleton].
    + apply Hbelow; [done|by right].
    + apply key_lt_intro_r. rewrite Forall_forall in Hm. by apply Hm.
  - rewrite Hsm1. apply Forall_app. split; [done|]. by apply Forall_singleton.
  - repeat split; [done..|]. intros k Hk. apply Hkeys' in Hk as [Hk|Hk]; [|by right].
    rewrite Hsm1, fmap_app, elem_of_app in Hk.
    destruct Hk as [Hk| ->%list_elem_of_singleton]; [by left|by right].
Qed.

Lemma evaluate_sample_Ret basename st st' :
  is_Some (ref_map !! basename) →
  evaluate_sample' basename st = Ret st' →
  StronglySorted key_lt (st.2.*1) →
  (∀ k, k ∈ st.2.*1 → str_lt k.1 basename) →
  Forall (row_ok out_dir ref_map) st.2 →
  StronglySorted key_lt (st'.2.*1) ∧ Forall (row_ok out_dir ref_map) st'.2 ∧
  ∀ k, k ∈ st'.2.*1 → k ∈ st.2.*1 ∨ k.1 = basename.
Proof.
  intros [ref_path Href] Hrun Hs Hbelow Hrows. unfold evaluate_sample', evaluate_sample in Hrun.
  apply bind_Ret_inv in Hrun as (hyps & _ & Hrun). rewrite Href in Hrun.
  case_decide as Hempty; [injection Hrun as <-; auto|].
  eapply inner_loop in Hrun; [exact Hrun|done| |done| |done].
  - apply sorted_items_strict.
  - intros k m Hk _. destruct k as [b m']. apply key_lt_intro_l. by apply Hbelow in Hk.
Qed.

Lemma outer_loop basenames st st' :
  StronglySorted str_lt basenames →
  (∀ b, b ∈ basenames → is_Some (ref_map !! b)) →
  for_each basenames evaluate_sample' st = Ret st' →
  StronglySorted key_lt (st.2.*1) →
  (∀ k b, k ∈ st.2.*1 → b ∈ basenames → str_lt k.1 b) →
  Forall (row_ok out_dir ref_map) st.2 →
  StronglySorted key_lt (st'.2.*1) ∧ Forall (row_ok out_dir ref_map) st'.2.
Proof.
  revert st. induction basenames as [|b bs IH];
    intros st Hbs Hdom Hrun Hs Hbelow Hrows.
  { injection Hrun as <-. auto. }
  apply for_each_cons_Ret in Hrun as (st1 & Hstep & Hrun).
  apply StronglySorted_inv in Hbs as [Hbs Hb].
  apply evaluate_sample_Ret in Hstep as (Hs1 & Hrows1 & Hkeys1);
    [|apply Hdom; by left|done|intros k Hk; apply Hbelow; [done|by left]|done].
  apply (IH st1); [done|intros b' Hb'; apply Hdom; by right|done..| |done].
  intros k b' Hk Hb'. apply Hkeys1 in Hk as [Hk|Hk].
  - apply Hbelow; [done|by right].
  - rewrite Hk. rewrite Forall_forall in Hb. by apply Hb.
Qed.

End driver_loops.

(** *** What [main] writes and how it ends *)

(** The result of a file-system operation: it returns or raises [OSError]. *)
Definition fs_outcome {A} (o : outcome A) : Prop :=
  match o with
  | Ret _ | Raise (OSError _) => True
  | _ => False
  end.

Lemma fs_outcome_bind {A B} (m : outcome A) (f : A → outcome B) :
  fs_outcome m → (∀ a, m = Ret a → fs_outcome (f a)) → fs_outcome (m ≫= f).
Proof. destruct m as [a|[]|]; try done. intros _ Hf. by apply Hf. Qed.

Lemma fs_outcome_for_each {I St} (xs : list I) (body : I → St → outcome St) s :
  (∀ x s, fs_outcome (body x s)) → fs_outcome (for_each xs body s).
Proof.
  intros Hbody. revert s. induction xs as [|x xs IH]; intros s; [done|].
  cbn [for_each]. apply fs_outcome_bind; [apply Hbody|]. intros s' _. apply IH.
Qed.

(** The directories are there and the search finds a reference file. *)
Definition usable_dirs {World : Type} (isdir : World → string → bool)
    (scandir : World → string → list string)
    (glob_dirs : World → string → list (string * list string)) (w : World)
    (out_dir samples_dir : string) : Prop :=
  isdir w out_dir = true ∧ isdir w samples_dir = true ∧
  ∃ dir name suf,
    dir ∈ searched_dirs samples_dir (scandir w (glob_dirname samples_dir))
                        (glob_dirs w (glob_dirname samples_dir)) ∧
    name ∈ dir.2 ∧ suf ∈ REF_TOKEN_SUFFIXES ∧
    endswith name suf = true ∧ startswith name "." = false.

Section driver_results.
Context {World : Type}.
Context (isdir : World → string → bool) (scandir : World → string → list string).
Context (glob_dirs : World → string → list (string * list string)).
Context (listdir : World → string → outcome (list string)).
Context (read_file : World → string → outcome text).
Context (open_write : World → string → outcome World).
Context (write_close : World → string → file_content → outcome World).
Context (token_repr : text → string).
Context (parse_args : list string → outcome (string * string)).

Let main_evaluate' :=
  main_evaluate isdir scandir glob_dirs listdir read_file open_write write_close
                token_repr.
Let main' :=
  main isdir scandir glob_dirs listdir read_file open_write write_close token_repr
       parse_args.
Let ref_map_at := build_reference_map_at isdir scandir glob_dirs.
Let usable := usable_dirs isdir scandir glob_dirs.

Lemma main_evaluate_Ret w out_dir samples_dir w' summary_map :
  main_evaluate' w out_dir samples_dir = Ret (w', summary_map) →
  StronglySorted key_lt (summary_map.*1) ∧
  Forall (row_ok out_dir (ref_map_at w samples_dir)) summary_map.
Proof.
  unfold main_evaluate', main_evaluate.
  destruct (isdir w out_dir); [|done]. destruct (isdir w samples_dir) eqn:Hs; [|done].
  cbn [negb]. fold ref_map_at. set (ref_map := ref_map_at w samples_dir).
  case_decide as Hempty; [done|]. intros Hrun.
  destruct (sorted_keys_strict ref_map) as [Hsorted Hkeys].
  eapply outer_loop in Hrun; [exact Hrun|done| | | |].
  - intros b Hb. by apply Hkeys.
  - constructor.
  - intros k b Hk. by apply elem_of_nil in Hk.
  - constructor.
Qed.

Lemma usable_dirs_ref_map w out_dir samples_dir :
  usable w out_dir samples_dir ↔
  isdir w out_dir = true ∧ isdir w samples_dir = true ∧
  ref_map_at w samples_dir ≠ ∅.
Proof.
  unfold usable, usable_dirs, ref_map_at, build_reference_map_at.
  destruct (isdir w out_dir); [|by split; intros [? _]].
  destruct (isdir w samples_dir); [|by split; intros (_ & ? & _)].
  split.
  - intros (_ & _ & dir & name & suf & Hdir & Hin & Hsuf & Hends & Hvis). repeat split.
    rewrite build_reference_map_empty.
    intros Hall. rewrite (Hall _ eq_refl dir name suf) in Hvis; done.
  - intros (_ & _ & (k & p & Hkp)%map_choose). repeat split.
    apply build_reference_map_filed in Hkp as [_ (suf & Hsuf & Hp)].
    apply elem_of_glob_suffix in Hp as (dir & name & Hdir & Hin & Hvis & Hends & _).
    by exists dir, name, suf.
Qed.

Section failure_modes.
Hypothesis listdir_fs : ∀ w d, fs_outcome (listdir w d).
Hypothesis read_file_fs : ∀ w p, fs_outcome (read_file w p).
Hypothesis open_write_fs : ∀ w p, fs_outcome (open_write w p).
Hypothesis write_close_fs : ∀ w p c, fs_outcome (write_close w p c).

Lemma read_tokens_at_fs w p : fs_outcome (read_tokens_at read_file token_repr w p).
Proof. unfold read_tokens_at. apply fs_outcome_bind; [apply read_file_fs|done]. Qed.

Lemma write_eval_and_alignment_fs w ref_path hyp_path ms out_dir :
  fs_outcome (write_eval_and_alignment read_file open_write write_close token_repr
                w ref_path hyp_path ms out_dir).
Proof.
  unfold write_eval_and_alignment.
  destruct (eval_and_alignment_paths hyp_path out_dir) as [eval_path align_path].
  repeat (apply fs_outcome_bind;
    [first [apply open_write_fs|apply read_tokens_at_fs|apply write_close_fs]|
     intros ? _]).
  done.
Qed.

Lemma evaluate_pair_fs out_dir basename ref_path item st :
  fs_outcome (evaluate_pair read_file open_write write_close token_repr
                out_dir basename ref_path item st).
Proof.
  unfold evaluate_pair. destruct st as [w sm], item as [model_name hyp_path].
  apply fs_outcome_bind; [apply read_tokens_at_fs|]. intros rt _.
  apply fs_outcome_bind; [apply read_tokens_at_fs|]. intros ht _.
  destruct (compute_measures_facts rt ht) as (ms & -> & _).
  apply fs_outcome_bind; [done|]. intros ? [= <-].
  apply fs_outcome_bind; [apply write_eval_and_alignment_fs|].
  by intros [w' [eval_path align_path]] _.
Qed.

Lemma evaluate_sample_fs out_dir ref_map basename st :
  fs_outcome (evaluate_sample isdir listdir read_file open_write write_close
                token_repr out_dir ref_map basename st).
Proof.
  unfold evaluate_sample. apply fs_outcome_bind.
  - unfold collect_hypotheses_by_model_at. destruct (isdir st.1 out_dir); [|done].
    apply fs_outcome_bind; [apply listdir_fs|done].
  - intros hyps _. case_decide; [done|].
    apply fs_outcome_for_each. intros. apply evaluate_pair_fs.
Qed.

Lemma main_usable argv w out_dir samples_dir :
  parse_args argv = Ret (out_dir, samples_dir) →
  usable w out_dir samples_dir →
  fs_outcome (main' argv w).
Proof.
  intros Hargs (Hout & Hsamples & Hrefs)%usable_dirs_ref_map.
  unfold main', main, main_evaluate. rewrite Hargs.
  change (Ret (out_dir, samples_dir) ≫= ?f) with (f (out_dir, samples_dir)).
  cbv beta iota. rewrite Hout, Hsamples. cbn [negb].
  rewrite decide_False by done.
  apply fs_outcome_bind.
  - apply fs_outcome_for_each. intros. apply evaluate_sample_fs.
  - intros [w' sm] _. apply fs_outcome_bind; [apply open_write_fs|].
    intros. apply write_close_fs.
Qed.

Lemma main_unusable argv w out_dir samples_dir :
  parse_args argv = Ret (out_dir, samples_dir) →
  ¬ usable w out_dir samples_dir →
  main' argv w = Raise (SystemExit 1).
Proof.
  rewrite usable_dirs_ref_map. intros Hargs Hno.
  unfold main', main, main_evaluate. rewrite Hargs.
  change (Ret (out_dir, samples_dir) ≫= ?f) with (f (out_dir, samples_dir)).
  cbv beta iota. fold ref_map_at.
  destruct (isdir w out_dir); [|done]. destruct (isdir w samples_dir); [|done].
  cbn [negb]. case_decide as Hempty; [done|]. by destruct Hno.
Qed.

End failure_modes.
End driver_results.

(** A small file system to run [main] on: two samples, three models; the
    files written are kept in a list.  Its parser knows two forms of the
    command line and the request for help. *)
Definition example_world : Type := list (string * file_content).
Definition example_isdir (w : example_world) (d : string) : bool :=
  bool_decide (d = "out") || bool_decide (d = "samples").
Definition example_scandir (w : example_world) (d : string) : list string :=
  ["a_ref.txt"; "b_ref.token.txt"; "b_ref.txt"].
Definition example_glob_dirs (w : example_world) (d : string)
  : list (string * list string) := [].
Definition example_listdir (w : example_world) (d : string) : outcome (list string) :=
  Ret (["b_m.txt"; "a_m.txt"; "a_n.token.txt"; "a_times.txt"] ++ w.*1).
Definition example_read_file (w : example_world) (p : string) : outcome text :=
  if contains p "_ref" then Ret [97; 32; 98; 10]%N
  else if contains p "_m" then Ret [97; 32; 99]%N
  else if contains p "_n" then Ret [97]%N
  else Raise (OSError p).
Definition example_open_write (w : example_world) (p : string) : outcome example_world :=
  Ret w.
Definition example_write_close (w : example_world) (p : string) (c : file_content)
  : outcome example_world :=
  Ret ((path_basename p, c) :: w).
Definition example_token_repr (tok : text) : string :=
  str ((λ c, Ascii.ascii_of_N c) <$> tok).
Definition example_parse_args (argv : list string) : outcome (string * string) :=
  match argv with
  | ["--out"; out_dir] => Ret (out_dir, "samples")
  | ["--out"; out_dir; "--samples"; samples_dir] => Ret (out_dir, samples_dir)
  | ["-h"] => Raise (SystemExit 0)
  | _ => Raise (SystemExit 2)
  end.

Definition example_main (argv : list string) : outcome example_world :=
  main example_isdir example_scandir example_glob_dirs example_listdir
       example_read_file example_open_write example_write_close example_token_repr
       example_parse_args argv [].

(** X18. The summary table.  When [main] returns, the command line was
    parsed and what was written to [evaluation_summary.csv] in the output
    directory is the rows of [summary_map] in the order in which the pairs
    were evaluated: sorting the keys changes nothing, because the keys
    (sample, model) were inserted in strictly increasing order, so that no
    row was replaced either.  In every row the sample and the model are those
    of its key, the reference is the entry of the reference map for the
    sample, the total is the sum of the three error counts, the rate is the
    binary64 quotient of the total by the reference length (0.0 for an empty
    reference), and the two file names are those computed from the
    hypothesis path. *)
Theorem summary_in_evaluation_order {World : Type}
    (isdir : World → string → bool) (scandir : World → string → list string)
    (glob_dirs : World → string → list (string * list string))
    (listdir : World → string → outcome (list string))
    (read_file : World → string → outcome text)
    (open_write : World → string → outcome World)
    (write_close : World → string → file_content → outcome World)
    (token_repr : text → string)
    (parse_args : list string → outcome (string * string))
    (argv : list string) (w w' : World) :
  main isdir scandir glob_dirs listdir read_file open_write write_close token_repr
       parse_args argv w = Ret w' →
  ∃ out_dir samples_dir w1 w2 summary_map,
    parse_args argv = Ret (out_dir, samples_dir) ∧
    main_evaluate isdir scandir glob_dirs listdir read_file open_write write_close
                  token_repr w out_dir samples_dir = Ret (w1, summary_map) ∧
    open_write w1 (path_join out_dir "evaluation_summary.csv") = Ret w2 ∧
    write_close w2 (path_join out_dir "evaluation_summary.csv")
                (SummaryCsv (summary_map.*2)) = Ret w' ∧
    StronglySorted (strict tuple_le) (summary_map.*1) ∧
    Forall (row_ok out_dir
              (build_reference_map_at isdir scandir glob_dirs w samples_dir))
           summary_map.
Proof.
  unfold main. intros ([out_dir samples_dir] & Hargs & Hrest)%bind_Ret_inv.
  apply bind_Ret_inv in Hrest as ([w1 sm] & Hev & Hrest).
  apply bind_Ret_inv in Hrest as (w2 & Hopen & Hwrite).
  destruct (main_evaluate_Ret _ _ _ _ _ _ _ _ _ _ _ _ _ Hev) as [Hsorted Hrows].
  rewrite summary_rows_strict in Hwrite by done.
  by exists out_dir, samples_dir, w1, w2, sm.
Qed.

Lemma summary_in_evaluation_order_witness :
  ∃ w', example_main ["--out"; "out"] = Ret w' ∧
  ∃ out_dir samples_dir w1 w2 summary_map,
    example_parse_args ["--out"; "out"] = Ret (out_dir, samples_dir) ∧
    main_evaluate example_isdir example_scandir example_glob_dirs example_listdir
       example_read_file example_open_write example_write_close example_token_repr
       [] out_dir samples_dir = Ret (w1, summary_map) ∧
    example_open_write w1 (path_join out_dir "evaluation_summary.csv") = Ret w2 ∧
    example_write_close w2 (path_join out_dir "evaluation_summary.csv")
                (SummaryCsv (summary_map.*2)) = Ret w' ∧
    StronglySorted (strict tuple_le) (summary_map.*1) ∧
    Forall (row_ok out_dir
              (build_reference_map_at example_isdir example_scandir example_glob_dirs
                 [] samples_dir))
           summary_map.
Proof.
  eexists. split; [vm_compute; reflexivity|].
  apply (summary_in_evaluation_order example_isdir example_scandir example_glob_dirs
           example_listdir example_read_file example_open_write example_write_close
           example_token_repr example_parse_args ["--out"; "out"] []).
  vm_compute. reflexivity.
Defined.



(** ** The claims about the resolver, the collector and the driver *)

(** C7, as stated, fails for a sample whose identifier starts with a dot:
    both variants are in the directory and stand for the sample [".x"], yet
    the map has no entry at all, because the [*] of the search pattern does
    not match a leading dot.  It also fails when the directory name is itself
    a pattern: the directory ["s[1]"] is not the one that is searched. *)
Lemma hidden_sample_has_no_reference :
  _basename_from_ref_filename ".x_ref.token.txt" = ".x" ∧
  _basename_from_ref_filename ".x_ref.txt" = ".x" ∧
  build_reference_map "samples" (Some [".x_ref.token.txt"; ".x_ref.txt"]) [] !! ".x"
    = None ∧
  build_reference_map "s[1]" (Some ["x_ref.token.txt"; "x_ref.txt"]) [] !! "x" = None.
Proof. by vm_compute. Qed.

(** C7, amended.  In a samples directory whose name has no pattern character
    and whose entries are plain names, for every sample identifier [x] that
    does not start with a dot: the entry for [x] is [x + "_ref.token.txt"]
    whenever the directory has it, whatever other variants it has; else
    [x + "_reference.token.txt"] whenever the directory has that; else
    [x + "_ref.txt"] if the directory has it.  A loop that fills in absent
    keys never displaces an entry.  A samples path that is not a directory
    gives the empty map. *)
Theorem reference_selection_by_priority (samples_dir : string) (names : list string)
    (matching : list (string * list string)) :
  has_magic samples_dir = false →
  Forall entry_name names →
  let refs := build_reference_map samples_dir (Some names) matching in
  let at_dir name := path_join (glob_dirname samples_dir) name in
  (∀ x, startswith x "." = false →
     (x +:+ "_ref.token.txt" ∈ names →
      refs !! x = Some (at_dir (x +:+ "_ref.token.txt"))) ∧
     (x +:+ "_ref.token.txt" ∉ names → x +:+ "_reference.token.txt" ∈ names →
      refs !! x = Some (at_dir (x +:+ "_reference.token.txt"))) ∧
     (x +:+ "_ref.token.txt" ∉ names → x +:+ "_reference.token.txt" ∉ names →
      x +:+ "_ref.txt" ∈ names →
      refs !! x = Some (at_dir (x +:+ "_ref.txt")))) ∧
  (∀ (later : list string) (chosen : gmap string string) b p,
     chosen !! b = Some p →
     foldl (λ refs q,
              let b := _basename_from_ref_filename (path_basename q) in
              if decide (is_Some (refs !! b)) then refs else <[b := q]> refs)
           chosen later !! b = Some p) ∧
  build_reference_map samples_dir None matching = ∅.
Proof.
  intros Hplain Hnames. cbn zeta. split; [|split; [|done]].
  - intros x Hx.
    rewrite (build_reference_map_lookup samples_dir names matching x Hplain Hnames), Hx.
    repeat split.
    + intros H1. by rewrite decide_True.
    + intros H1 H2. by repeat case_decide.
    + intros H1 H2 H3. by repeat case_decide.
  - intros later chosen b p Hb. by apply (foldl_put_if_absent_keep later chosen b p).
Qed.

Lemma reference_selection_by_priority_witness :
  has_magic "samples" = false ∧
  Forall entry_name ["x_ref.txt"; "x_ref.token.txt"] ∧
  build_reference_map "samples" (Some ["x_ref.txt"; "x_ref.token.txt"]) [] !! "x"
    = Some "samples/x_ref.token.txt".
Proof.
  assert (Forall entry_name ["x_ref.txt"; "x_ref.token.txt"]) as Hnames
    by (by apply (bool_decide_unpack _); vm_compute).
  split; [reflexivity|]. split; [exact Hnames|].
  destruct (reference_selection_by_priority "samples" ["x_ref.txt"; "x_ref.token.txt"] []
              eq_refl Hnames) as [Hsel _].
  apply (Hsel "x"); [reflexivity|]. by apply (bool_decide_unpack _); vm_compute.
Defined.

(** C8. In the loop body, a tokenized file of model [M] is stored for [M]
    whatever was recorded before; a raw file of [M] is stored only when
    nothing is recorded for [M], and otherwise leaves the entry as it is; the
    entries of other models are untouched, so that a model has at most one
    file.  With both ["x_m1.txt"] and ["x_m1.token.txt"] in the directory,
    in any order and among any other entries, the file selected for model
    ["m1"] of sample ["x"] is ["x_m1.token.txt"]. *)
Theorem collector_selection_rule :
  (∀ out_dir prefix candidates fname M,
     classify_hypothesis prefix fname = Some (M, true) →
     collect_step out_dir prefix candidates fname !! M
       = Some (path_join out_dir fname)) ∧
  (∀ out_dir prefix candidates fname M,
     classify_hypothesis prefix fname = Some (M, false) →
     collect_step out_dir prefix candidates fname !! M
       = match candidates !! M with
         | Some recorded => Some recorded
         | None => Some (path_join out_dir fname)
         end) ∧
  (∀ out_dir prefix candidates fname M M' is_tokenized,
     classify_hypothesis prefix fname = Some (M, is_tokenized) → M' ≠ M →
     collect_step out_dir prefix candidates fname !! M' = candidates !! M') ∧
  (∀ out_dir prefix candidates fname,
     classify_hypothesis prefix fname = None →
     collect_step out_dir prefix candidates fname = candidates) ∧
  (∀ out_dir names,
     "x_m1.txt" ∈ names → "x_m1.token.txt" ∈ names →
     collect_hypotheses_by_model out_dir (Some names) "x" !! "m1"
       = Some (path_join out_dir "x_m1.token.txt")).
Proof.
  repeat split.
  - intros out_dir prefix candidates fname M Hf. unfold collect_step.
    by rewrite Hf, lookup_insert_eq.
  - intros out_dir prefix candidates fname M Hf. unfold collect_step. rewrite Hf.
    destruct (candidates !! M) as [p|] eqn:Hm.
    + rewrite decide_True by (by eexists). done.
    + rewrite decide_False by (by intros [? ?]). by rewrite lookup_insert_eq.
  - intros out_dir prefix candidates fname M M' tok Hf Hne. unfold collect_step.
    rewrite Hf. destruct tok; [by rewrite lookup_insert_ne|].
    case_decide; [done|]. by rewrite lookup_insert_ne.
  - intros out_dir prefix candidates fname Hf. unfold collect_step. by rewrite Hf.
  - intros out_dir names Hraw Htok. rewrite collect_hypotheses_lookup. cbn zeta.
    change (("x" +:+ "_") +:+ "m1" +:+ ".token.txt") with "x_m1.token.txt".
    change (is_times_or_eval "m1") with false. cbv iota.
    rewrite bool_decide_true by done.
    by change (is_ref_file "x_m1.token.txt") with false.
Qed.

Lemma startswith_nonempty_app x y c :
  x ≠ "" → startswith (x +:+ y) (String c "") = startswith x (String c "").
Proof.
  destruct x as [|d x]; [done|]. intros _.
  unfold startswith. apply bool_decide_ext.
  change (String d x +:+ y) with (String d (x +:+ y)).
  unfold chars. cbn [String.list_ascii_of_string].
  split; intros [k Hk]; simplify_eq/=; by eexists.
Qed.

Lemma path_join_inj_rel a f1 f2 :
  startswith f1 "/" = startswith f2 "/" → path_join a f1 = path_join a f2 → f1 = f2.
Proof.
  unfold path_join. intros <-. destruct (startswith f1 "/"); [done|].
  destruct (bool_decide (a = "") || endswith a "/").
  - apply app_inv_head_str.
  - intros H. by do 2 apply app_inv_head_str in H.
Qed.

Lemma collect_hypotheses_selected out_dir names basename M p :
  collect_hypotheses_by_model out_dir (Some names) basename !! M = Some p →
  ∃ fname, fname ∈ names ∧ p = path_join out_dir fname ∧
    (fname = (basename +:+ "_") +:+ M +:+ ".token.txt" ∨
     fname = (basename +:+ "_") +:+ M +:+ ".txt") ∧
    is_ref_file fname = false ∧ is_times_or_eval M = false.
Proof.
  rewrite collect_hypotheses_lookup. cbn zeta.
  destruct (is_times_or_eval M); [done|].
  destruct (bool_decide _ && negb _) eqn:Htok.
  - apply andb_true_iff in Htok as [Hin%bool_decide_eq_true Href%negb_true_iff].
    intros [= <-]. eexists. repeat split; [done|by left|done].
  - destruct (bool_decide _ && negb _ && negb _) eqn:Hraw; [|done].
    apply andb_true_iff in Hraw as [Hraw _].
    apply andb_true_iff in Hraw as [Hin%bool_decide_eq_true Href%negb_true_iff].
    intros [= <-]. eexists. repeat split; [done|by right|done].
Qed.



Lemma for_each_Raise {I St} (xs1 : list I) x xs2 (body : I → St → outcome St) s s1 e :
  for_each xs1 body s = Ret s1 → body x s1 = Raise e →
  for_each (xs1 ++ x :: xs2) body s = Raise e.
Proof.
  revert s. induction xs1 as [|y xs1 IH]; intros s Hrun Hx.
  - injection Hrun as ->. cbn [app for_each]. by rewrite Hx.
  - apply for_each_cons_Ret in Hrun as (s' & Hy & Hrun).
    cbn [app for_each]. rewrite Hy. by apply IH.
Qed.

(** A directory with a hypothesis that cannot be read, ["a_q.txt"]. *)
Definition example_listdir_unreadable (w : example_world) (d : string)
  : outcome (list string) :=
  Ret ["a_m.txt"; "a_q.txt"; "b_m.txt"].

(** C6, as stated, fails: with one unreadable hypothesis the run ends in the
    error of that file.  The pair is not skipped: the pair of sample ["b"],
    whose files can be read, is not evaluated and no summary is written. *)
Lemma unreadable_hypothesis_aborts_run :
  example_read_file [] "out/a_q.txt" = Raise (OSError "out/a_q.txt") ∧
  example_read_file [] "out/b_m.txt" = Ret [97; 32; 99]%N ∧
  example_read_file [] "samples/b_ref.token.txt" = Ret [97; 32; 98; 10]%N ∧
  main example_isdir example_scandir example_glob_dirs example_listdir_unreadable
       example_read_file example_open_write example_write_close example_token_repr
       example_parse_args ["--out"; "out"] []
    = Raise (OSError "out/a_q.txt").
Proof. by vm_compute. Qed.

(** C6, amended.  An error raised while a file is read is not handled
    anywhere: if the reference or the hypothesis of a pair cannot be read,
    the evaluation of the pair raises that error; an error raised for a pair
    ends the loop over the models of the sample, the pairs after it are
    not evaluated; an error raised for a sample ends the loop over the
    samples; and an error of that loop is the result of [main], which then
    writes no summary. *)
Theorem io_error_aborts_run {World : Type}
    (isdir : World → string → bool) (scandir : World → string → list string)
    (glob_dirs : World → string → list (string * list string))
    (listdir : World → string → outcome (list string))
    (read_file : World → string → outcome text)
    (open_write : World → string → outcome World)
    (write_close : World → string → file_content → outcome World)
    (token_repr : text → string)
    (parse_args : list string → outcome (string * string)) :
  let pair := evaluate_pair read_file open_write write_close token_repr in
  let sample := evaluate_sample isdir listdir read_file open_write write_close
                                token_repr in
  (∀ out_dir basename ref_path model_name hyp_path w summary_map e,
     read_file w ref_path = Raise e →
     pair out_dir basename ref_path (model_name, hyp_path) (w, summary_map) = Raise e) ∧
  (∀ out_dir basename ref_path model_name hyp_path w summary_map content e,
     read_file w ref_path = Ret content → read_file w hyp_path = Raise e →
     pair out_dir basename ref_path (model_name, hyp_path) (w, summary_map) = Raise e) ∧
  (∀ out_dir basename ref_path before item after st st1 e,
     for_each before (pair out_dir basename ref_path) st = Ret st1 →
     pair out_dir basename ref_path item st1 = Raise e →
     for_each (before ++ item :: after) (pair out_dir basename ref_path) st = Raise e) ∧
  (∀ out_dir ref_map basename st hyps_by_model e,
     collect_hypotheses_by_model_at isdir listdir st.1 out_dir basename
       = Ret hyps_by_model →
     hyps_by_model ≠ ∅ →
     for_each (sorted_items hyps_by_model)
              (pair out_dir basename (default "" (ref_map !! basename))) st = Raise e →
     sample out_dir ref_map basename st = Raise e) ∧
  (∀ out_dir ref_map before basename after st st1 e,
     for_each before (sample out_dir ref_map) st = Ret st1 →
     sample out_dir ref_map basename st1 = Raise e →
     for_each (before ++ basename :: after) (sample out_dir ref_map) st = Raise e) ∧
  (∀ argv w out_dir samples_dir e,
     parse_args argv = Ret (out_dir, samples_dir) →
     isdir w out_dir = true → isdir w samples_dir = true →
     build_reference_map_at isdir scandir glob_dirs w samples_dir ≠ ∅ →
     for_each (sorted_keys (build_reference_map_at isdir scandir glob_dirs w samples_dir))
              (sample out_dir (build_reference_map_at isdir scandir glob_dirs w samples_dir))
              (w, []) = Raise e →
     main isdir scandir glob_dirs listdir read_file open_write write_close token_repr
          parse_args argv w = Raise e).
Proof.
  cbn zeta. repeat split.
  - intros out_dir basename ref_path model_name hyp_path w sm e Href.
    unfold evaluate_pair, read_tokens_at. by rewrite Href.
  - intros out_dir basename ref_path model_name hyp_path w sm content e Href Hhyp.
    unfold evaluate_pair, read_tokens_at. by rewrite Href, Hhyp.
  - intros out_dir basename ref_path before item after st st1 e. apply for_each_Raise.
  - intros out_dir ref_map basename st hyps e Hcollect Hne Hloop.
    unfold evaluate_sample. rewrite Hcollect.
    change (Ret hyps ≫= ?f) with (f hyps). cbv beta.
    by rewrite decide_False.
  - intros out_dir ref_map before basename after st st1 e. apply for_each_Raise.
  - intros argv w out_dir samples_dir e Hargs Hout Hsamples Hrefs Hloop.
    unfold main, main_evaluate. rewrite Hargs.
    change (Ret (out_dir, samples_dir) ≫= ?f) with (f (out_dir, samples_dir)).
    cbv beta iota. rewrite Hout, Hsamples. cbn [negb].
    rewrite decide_False by done. unfold summary in *. by rewrite Hloop.
Qed.
